(** * DevTools resource update transactions

    A shallow embedding of [src/chrome/devtools-transactions.js] and of the
    [debounce] and [error] helpers of [lib/utils.js].

    The JavaScript is asynchronous: a run of the pipeline is a promise chain
    that is suspended while [devtools.getContent], the race of [applyPatch]
    against [rejectOnTimeout], and [devtools.update] are pending, and the
    debounced entry point waits on [setTimeout].  The embedding is an event
    machine: the state holds everything the module and its closures own (the
    [transactions] map, the variables captured by every debounced closure,
    the timer queue, the suspended promise chains) and an event is what the
    JavaScript event loop delivers (a call of the exported function, a timer
    that fires, a promise of a collaborator that settles, a change of the
    store made by someone else).  The promise reactions that run back to
    back once a promise has settled are executed within one step. *)

From Stdlib Require Import Ascii.
From stdpp Require Import gmap strings list pretty.

Open Scope Z_scope.

(** ** Values *)

(** What [session.patches.get(url)] may hold.  Objects are compared by
    reference, so an object is its identity. *)
Inductive value :=
| VUndefined
| VNull
| VBool (b : bool)
| VNum (n : Z)
| VStr (s : string)
| VObj (ref : nat).

#[global] Instance value_eq_dec : EqDecision value.
Proof. solve_decision. Defined.

(** JavaScript truthiness ([ToBoolean]). *)
Definition truthy (v : value) : bool :=
  match v with
  | VUndefined | VNull => false
  | VBool b => b
  | VNum n => negb (n =? 0)
  | VStr s => negb (bool_decide (s = ""))
  | VObj _ => true
  end.

(** [a && b] and [a || b]. *)
Definition js_and (a b : value) : value := if truthy a then b else a.
Definition js_or (a b : value) : value := if truthy a then a else b.

(** [a === b]. *)
Definition strict_eq (a b : value) : bool := bool_decide (a = b).

(** ** Errors ([error] of lib/utils.js) *)

Record jserror := { code : option string; message : string }.

#[global] Instance jserror_eq_dec : EqDecision jserror.
Proof. solve_decision. Defined.

Definition error (c : string) (msg : string) : jserror :=
  {| code := Some c; message := if bool_decide (msg = "") then c else msg |}.

(** The [TypeError] the engine throws when a property of [undefined] is
    read or [undefined] is called; it carries no [code]. *)
Definition TypeError : jserror := {| code := None; message := "TypeError" |}.

(** How a promise settles. *)
Inductive settled (A : Type) :=
| Fulfilled (a : A)
| Rejected (e : jserror).
Arguments Fulfilled {A} a.
Arguments Rejected {A} e.

(** What [applyPatch] resolves with: [response.content] is read from it. *)
Inductive response :=
| RNullish
| RObject (content : string).

(** A caller-supplied [applyPatch] function, known by its identity only. *)
Definition fn := nat.

(** ** The store ([getStateValue('sessions')]) *)

Record session := { patches : gmap string value }.

(** ** State of the module *)

(** The two callbacks the module hands to [setTimeout]. *)
Inductive callback :=
| Later (h : nat)            (* [later] of the debounced closure [h] *)
| RejectOnTimeout (r : nat). (* the rejecting arrow of [rejectOnTimeout] *)

#[global] Instance callback_eq_dec : EqDecision callback.
Proof. solve_decision. Defined.

Record timer := { tid : nat; due : Z; cb : callback }.

(** The variables captured by one closure returned by [createTransaction]:
    [tabId] and [resourceUrl], and the [timeout], [args] and [timestamp] of
    [debounce].  [debounce] is called once, with [wait = updateDebounce] and
    no [immediate].  [args] is [None] both for [null] and for an argument
    list that carries no function. *)
Record transaction := {
  t_tabId : Z;
  t_resourceUrl : string;
  timeout : option nat;
  args : option fn;
  timestamp : Z
}.

(** Where a promise chain is suspended. *)
Inductive phase :=
| Reading     (* [devtools.getContent] is pending *)
| Applying    (* the race of [applyPatch] and [rejectOnTimeout] is pending *)
| Committing  (* [devtools.update] is pending *)
| Finished.   (* the last [then] has run *)

#[global] Instance phase_eq_dec : EqDecision phase.
Proof. solve_decision. Defined.

(** One invocation of the debounced function: its parameter [applyPatch],
    its local [snapshot], the closure it belongs to. *)
Record run := {
  r_transaction : nat;
  r_tabId : Z;
  r_resourceUrl : string;
  r_applyPatch : option fn;
  r_snapshot : value;
  r_phase : phase
}.

(** Calls to the collaborators and to the console, in the order made. *)
Inductive effect :=
| ConsoleGroupCollapsed (r : nat) (tabId : Z) (url : string)
| GetContent (r : nat) (tabId : Z) (url : string)
| ConsoleInfo (r : nat) (msg : string)
| ApplyPatch (r : nat) (f : fn) (content : string) (snapshot : value)
| DispatchReset (r : nat) (tabId : Z) (uri : string)
| Update (r : nat) (tabId : Z) (url : string) (content : string)
| ConsoleError (r : nat) (e : jserror)
| ConsoleGroupEnd (r : nat).

#[global] Instance effect_eq_dec : EqDecision effect.
Proof. solve_decision. Defined.

Record state := {
  now : Z;                          (* [Date.now()] *)
  sessions : gmap Z session;        (* [getStateValue('sessions')] *)
  transactions : gmap string nat;   (* [const transactions = new Map()] *)
  closures : list transaction;      (* every closure ever created *)
  timers : list timer;              (* pending [setTimeout] callbacks *)
  next_timer : nat;
  runs : list run;                  (* every promise chain ever started *)
  log : list effect
}.

Definition updateDebounce : Z := 1000.

Definition initial (t0 : Z) (s : gmap Z session) : state :=
  {| now := t0; sessions := s; transactions := ∅; closures := [];
     timers := []; next_timer := 1%nat; runs := []; log := [] |}.

(** *** Field updates *)

Definition set_now (t : Z) (st : state) : state :=
  {| now := t; sessions := sessions st; transactions := transactions st;
     closures := closures st; timers := timers st;
     next_timer := next_timer st; runs := runs st; log := log st |}.

Definition set_sessions (s : gmap Z session) (st : state) : state :=
  {| now := now st; sessions := s; transactions := transactions st;
     closures := closures st; timers := timers st;
     next_timer := next_timer st; runs := runs st; log := log st |}.

Definition set_transactions (m : gmap string nat) (st : state) : state :=
  {| now := now st; sessions := sessions st; transactions := m;
     closures := closures st; timers := timers st;
     next_timer := next_timer st; runs := runs st; log := log st |}.

Definition set_closures (l : list transaction) (st : state) : state :=
  {| now := now st; sessions := sessions st; transactions := transactions st;
     closures := l; timers := timers st;
     next_timer := next_timer st; runs := runs st; log := log st |}.

Definition set_timers (l : list timer) (st : state) : state :=
  {| now := now st; sessions := sessions st; transactions := transactions st;
     closures := closures st; timers := l;
     next_timer := next_timer st; runs := runs st; log := log st |}.

Definition set_runs (l : list run) (st : state) : state :=
  {| now := now st; sessions := sessions st; transactions := transactions st;
     closures := closures st; timers := timers st;
     next_timer := next_timer st; runs := l; log := log st |}.

Definition emit (e : effect) (st : state) : state :=
  {| now := now st; sessions := sessions st; transactions := transactions st;
     closures := closures st; timers := timers st;
     next_timer := next_timer st; runs := runs st; log := log st ++ [e] |}.

Definition set_closure (h : nat) (t : transaction) (st : state) : state :=
  set_closures (<[h := t]> (closures st)) st.

Definition set_run (r : nat) (rn : run) (st : state) : state :=
  set_runs (<[r := rn]> (runs st)) st.

Definition with_timeout (o : option nat) (t : transaction) : transaction :=
  {| t_tabId := t_tabId t; t_resourceUrl := t_resourceUrl t; timeout := o;
     args := args t; timestamp := timestamp t |}.

Definition with_args (a : option fn) (t : transaction) : transaction :=
  {| t_tabId := t_tabId t; t_resourceUrl := t_resourceUrl t;
     timeout := timeout t; args := a; timestamp := timestamp t |}.

Definition with_timestamp (ts : Z) (t : transaction) : transaction :=
  {| t_tabId := t_tabId t; t_resourceUrl := t_resourceUrl t;
     timeout := timeout t; args := args t; timestamp := ts |}.

Definition with_snapshot (v : value) (rn : run) : run :=
  {| r_transaction := r_transaction rn; r_tabId := r_tabId rn;
     r_resourceUrl := r_resourceUrl rn; r_applyPatch := r_applyPatch rn;
     r_snapshot := v; r_phase := r_phase rn |}.

Definition with_phase (p : phase) (rn : run) : run :=
  {| r_transaction := r_transaction rn; r_tabId := r_tabId rn;
     r_resourceUrl := r_resourceUrl rn; r_applyPatch := r_applyPatch rn;
     r_snapshot := r_snapshot rn; r_phase := p |}.

(** ** devtools-transactions.js *)

(** [getKey]: the template literal [`${tabId}+${resourceUrl}`]. *)
Definition getKey (tabId : Z) (resourceUrl : string) : string :=
  pretty tabId +:+ "+" +:+ resourceUrl.

(** [cancel] rejects with this error. *)
Definition cancel : jserror := error "ECANCEL" "Transaction was cancelled".

(** [Map.prototype.get]. *)
Definition map_get (m : gmap string value) (k : string) : value :=
  default VUndefined (m !! k).

(** [getResourcePatches]:
    [session && session.patches.get(url) || null]. *)
Definition getResourcePatches (tabId : Z) (url : string) (st : state) : value :=
  match sessions st !! tabId with
  | None => js_or (js_and VUndefined VUndefined) VNull
  | Some s => js_or (map_get (patches s) url) VNull
  end.

(** Modelled from the spec: the reducer of the store for
    [SESSION.RESET_RESOURCE_PATCHES], which lives in [app/store] and is not
    part of the sources at hand.  "Clears consumed backlog; must be
    idempotent-safe to call even if no patches remain": the entry of the
    resource is dropped from the session's patches. *)
Definition reset_resource_patches (tabId : Z) (uri : string)
    (s : gmap Z session) : gmap Z session :=
  alter (λ ss, {| patches := delete uri (patches ss) |}) tabId s.

(** [dispatch({type: SESSION.RESET_RESOURCE_PATCHES, uri, tabId})]. *)
Definition dispatch_reset (r : nat) (tabId : Z) (uri : string) (st : state) : state :=
  set_sessions (reset_resource_patches tabId uri (sessions st))
    (emit (DispatchReset r tabId uri) st).

(** [setTimeout(cb, delay)]. *)
Definition setTimeout (c : callback) (delay : Z) (st : state) : nat * state :=
  let id := next_timer st in
  (id,
   {| now := now st; sessions := sessions st; transactions := transactions st;
      closures := closures st;
      timers := timers st ++ [{| tid := id; due := now st + delay; cb := c |}];
      next_timer := S id; runs := runs st; log := log st |}).

(** [rejectOnTimeout(timeout)]: the promise it returns is the one the timer
    rejects with [error('ETIMEOUT', 'Timeout')] for the race of the run [r]. *)
Definition rejectOnTimeout (r : nat) (timeout : Z) (st : state) : nat * state :=
  setTimeout (RejectOnTimeout r) timeout st.

(** The function returned by [debounce], for the closure [h]. *)
Definition debounced (h : nat) (a : option fn) (st : state) : state :=
  match closures st !! h with
  | None => st
  | Some t =>
      let t := with_timestamp (now st) (with_args a t) in
      match timeout t with
      | Some _ => set_closure h t st
      | None =>
          let '(id, st) := setTimeout (Later h) updateDebounce st in
          set_closure h (with_timeout (Some id) t) st
      end
  end.

(** The function passed to [debounce], up to its first suspension:
    [console.groupCollapsed] and the call of [devtools.getContent]. *)
Definition pipeline (h : nat) (applyPatch : option fn) (st : state) : state :=
  match closures st !! h with
  | None => st
  | Some t =>
      let r := length (runs st) in
      let rn := {| r_transaction := h; r_tabId := t_tabId t;
                   r_resourceUrl := t_resourceUrl t;
                   r_applyPatch := applyPatch;
                   r_snapshot := VUndefined; r_phase := Reading |} in
      emit (GetContent r (t_tabId t) (t_resourceUrl t))
        (emit (ConsoleGroupCollapsed r (t_tabId t) (t_resourceUrl t))
           (set_runs (runs st ++ [rn]) st))
  end.

(** [later] of [debounce]. *)
Definition later (h : nat) (st : state) : state :=
  match closures st !! h with
  | None => st
  | Some t =>
      let last := now st - timestamp t in
      if (last <? updateDebounce) && (0 <=? last) then
        let '(id, st) := setTimeout (Later h) (updateDebounce - last) st in
        set_closure h (with_timeout (Some id) t) st
      else
        let st := set_closure h (with_timeout None t) st in
        let st := pipeline h (args t) st in
        match closures st !! h with
        | Some t' =>
            if timeout t' is None then set_closure h (with_args None t') st
            else st
        | None => st
        end
  end.

(** The last [then]: the completion recheck. *)
Definition complete (r : nat) (st : state) : state :=
  match runs st !! r with
  | None => st
  | Some rn =>
      let st := set_run r (with_phase Finished (with_snapshot VNull rn)) st in
      let st := emit (ConsoleGroupEnd r) st in
      let patches := getResourcePatches (r_tabId rn) (r_resourceUrl rn) st in
      if truthy patches then
        debounced (r_transaction rn) (r_applyPatch rn)
          (emit (ConsoleInfo r "Pending patches, restart transaction for") st)
      else
        set_transactions
          (delete (getKey (r_tabId rn) (r_resourceUrl rn)) (transactions st)) st
  end.

(** The [catch] handler. *)
Definition caught (r : nat) (e : jserror) (st : state) : state :=
  if bool_decide (code e ≠ Some "ECANCEL") then emit (ConsoleError r e) st
  else st.

(** A rejection travels down the chain: [catch], then the last [then]. *)
Definition rejected (r : nat) (e : jserror) (st : state) : state :=
  complete r (caught r e st).

(** The first [then]: the content has been read. *)
Definition onContent (r : nat) (content : string) (st : state) : state :=
  match runs st !! r with
  | None => st
  | Some rn =>
      let snapshot := getResourcePatches (r_tabId rn) (r_resourceUrl rn) st in
      let st := set_run r (with_snapshot snapshot rn) st in
      if negb (truthy snapshot) then
        rejected r cancel (emit (ConsoleInfo r "No patches for resource, abort") st)
      else
        match r_applyPatch rn with
        | None => rejected r TypeError st
        | Some f =>
            let st := emit (ApplyPatch r f content snapshot) st in
            let '(_, st) := rejectOnTimeout r 10000 st in
            set_run r (with_phase Applying (with_snapshot snapshot rn)) st
        end
  end.

(** The second [then]: the race was won by [applyPatch], which resolved. *)
Definition onPatched (r : nat) (resp : response) (st : state) : state :=
  match runs st !! r with
  | None => st
  | Some rn =>
      let st := emit (ConsoleInfo r "Resource patched, try to update content") st in
      let curSnapshot := getResourcePatches (r_tabId rn) (r_resourceUrl rn) st in
      if negb (truthy curSnapshot) then
        rejected r cancel
          (emit (ConsoleInfo r "Session destroyed when patching resource, abort") st)
      else if strict_eq (r_snapshot rn) curSnapshot then
        let st := dispatch_reset r (r_tabId rn) (r_resourceUrl rn) st in
        match resp with
        | RNullish => rejected r TypeError st
        | RObject content =>
            set_run r (with_phase Committing rn)
              (emit (Update r (r_tabId rn) (r_resourceUrl rn) content) st)
        end
      else complete r st
  end.

(** [createTransaction]. *)
Definition createTransaction (tabId : Z) (resourceUrl : string) (st : state) : state :=
  let key := getKey tabId resourceUrl in
  let h := length (closures st) in
  let t := {| t_tabId := tabId; t_resourceUrl := resourceUrl;
              timeout := None; args := None; timestamp := 0 |} in
  set_transactions (<[key := h]> (transactions st))
    (set_closures (closures st ++ [t]) st).

(** The default export. *)
Definition requestUpdateTransaction (tabId : Z) (resourceUrl : string)
    (applyPatch : fn) (st : state) : state :=
  let key := getKey tabId resourceUrl in
  let st := if transactions st !! key is None
            then createTransaction tabId resourceUrl st else st in
  match transactions st !! key with
  | Some h => debounced h (Some applyPatch) st
  | None => st
  end.

(** ** The event loop *)

Inductive event :=
| Advance (t : Z)
| Fire (id : nat)
| Request (tabId : Z) (url : string) (applyPatch : fn)
| ContentSettled (r : nat) (s : settled string)
| PatchSettled (r : nat) (s : settled response)
| UpdateSettled (r : nat) (s : settled unit)
| StoreChanged (s : gmap Z session).

Definition phase_of (r : nat) (st : state) : option phase :=
  r_phase <$> runs st !! r.

Definition in_phase (r : nat) (p : phase) (st : state) : bool :=
  bool_decide (phase_of r st = Some p).

(** The timer [id], if it is pending and due. *)
Definition due_timer (id : nat) (st : state) : option timer :=
  match filter (λ tm, tid tm = id) (timers st) with
  | tm :: _ => if due tm <=? now st then Some tm else None
  | [] => None
  end.

Definition run_callback (c : callback) (st : state) : state :=
  match c with
  | Later h => later h st
  | RejectOnTimeout r =>
      if in_phase r Applying st then rejected r (error "ETIMEOUT" "Timeout") st
      else st
  end.

Definition fire (id : nat) (st : state) : state :=
  match due_timer id st with
  | Some tm =>
      run_callback (cb tm)
        (set_timers (filter (λ tm, tid tm ≠ id) (timers st)) st)
  | None => st
  end.

(** One turn of the event loop.  An event that cannot happen in the state
    (a timer that is not due, a promise that is not pending) changes
    nothing; a promise that settles after its race was lost is ignored. *)
Definition step (ev : event) (st : state) : state :=
  match ev with
  | Advance t => set_now (Z.max (now st) t) st
  | Fire id => fire id st
  | Request tabId url applyPatch => requestUpdateTransaction tabId url applyPatch st
  | ContentSettled r s =>
      if in_phase r Reading st then
        match s with
        | Fulfilled content => onContent r content st
        | Rejected e => rejected r e st
        end
      else st
  | PatchSettled r s =>
      if in_phase r Applying st then
        match s with
        | Fulfilled resp => onPatched r resp st
        | Rejected e => rejected r e st
        end
      else st
  | UpdateSettled r s =>
      if in_phase r Committing st then
        match s with
        | Fulfilled _ => complete r st
        | Rejected e => rejected r e st
        end
      else st
  | StoreChanged s => set_sessions s st
  end.

Definition exec (evs : list event) (st : state) : state :=
  foldl (λ st ev, step ev st) st evs.

(** The event loop left alone until the clock reads [target]: due timers
    fire in the order of their due time, each at its due time. *)
Definition earlier (a b : timer) : timer := if due b <? due a then b else a.

Definition next_due (target : Z) (st : state) : option timer :=
  match filter (λ tm, due tm ≤ target) (timers st) with
  | tm :: l => Some (foldl earlier tm l)
  | [] => None
  end.

Fixpoint run_until (fuel : nat) (target : Z) (st : state) : state :=
  match next_due target st with
  | None => step (Advance target) st
  | Some tm =>
      match fuel with
      | O => st
      | S n => run_until n target (step (Fire (tid tm)) (step (Advance (due tm)) st))
      end
  end.


(** ** Vocabulary of the statements *)

Definition key_of (rn : run) : string := getKey (r_tabId rn) (r_resourceUrl rn).

(** The run whose handlers made the call. *)
Definition effect_run (e : effect) : nat :=
  match e with
  | ConsoleGroupCollapsed r _ _ | GetContent r _ _ | ConsoleInfo r _
  | ApplyPatch r _ _ _ | DispatchReset r _ _ | Update r _ _ _
  | ConsoleError r _ | ConsoleGroupEnd r => r
  end.

Definition is_write (e : effect) : bool :=
  match e with Update _ _ _ _ => true | _ => false end.

Definition is_dispatch (e : effect) : bool :=
  match e with DispatchReset _ _ _ => true | _ => false end.

Definition is_error (e : effect) : bool :=
  match e with ConsoleError _ _ => true | _ => false end.

(** A run is in flight from the call of [devtools.getContent] until its
    last [then] has run. *)
Definition in_flight (r : nat) (st : state) : Prop :=
  ∃ p, phase_of r st = Some p ∧ p ≠ Finished.

(** No two promise chains of one key are suspended at the same time. *)
Definition one_in_flight_per_key (st : state) : Prop :=
  ∀ r1 r2 rn1 rn2,
    runs st !! r1 = Some rn1 → runs st !! r2 = Some rn2 →
    r_phase rn1 ≠ Finished → r_phase rn2 ≠ Finished →
    key_of rn1 = key_of rn2 → r1 = r2.

(** The debounce timers of the closure [h] that are pending. *)
Definition pending_later (h : nat) (st : state) : list timer :=
  filter (λ tm, cb tm = Later h) (timers st).

Definition reachable (st : state) : Prop :=
  ∃ t0 s evs, st = exec evs (initial t0 s).

(** From [st] to [st'] only the handlers of the run [r] made calls and
    touched a promise chain. *)
Definition acts_on (r : nat) (st st' : state) : Prop :=
  (∃ l, log st' = log st ++ l ∧ Forall (λ e, effect_run e = r) l) ∧
  (∀ r', r' ≠ r → runs st' !! r' = runs st !! r').

(** What the last [then] leaves of a run. *)
Definition finish (rn : run) : run := with_phase Finished (with_snapshot VNull rn).

(** The ways a failure reaches the [catch] of the run [r], whose record in
    the state is [rn]: the event that delivers it and the error caught. *)
Inductive raises (st : state) (r : nat) (rn : run) : event → jserror → Prop :=
| read_fails e :
    r_phase rn = Reading →
    raises st r rn (ContentSettled r (Rejected e)) e
| no_patches content :
    r_phase rn = Reading →
    truthy (getResourcePatches (r_tabId rn) (r_resourceUrl rn) st) = false →
    raises st r rn (ContentSettled r (Fulfilled content)) cancel
| not_callable content :
    r_phase rn = Reading →
    truthy (getResourcePatches (r_tabId rn) (r_resourceUrl rn) st) = true →
    r_applyPatch rn = None →
    raises st r rn (ContentSettled r (Fulfilled content)) TypeError
| apply_fails e :
    r_phase rn = Applying →
    raises st r rn (PatchSettled r (Rejected e)) e
| race_times_out tm :
    r_phase rn = Applying →
    due_timer (tid tm) st = Some tm → cb tm = RejectOnTimeout r →
    raises st r rn (Fire (tid tm)) (error "ETIMEOUT" "Timeout")
| session_destroyed resp :
    r_phase rn = Applying →
    truthy (getResourcePatches (r_tabId rn) (r_resourceUrl rn) st) = false →
    raises st r rn (PatchSettled r (Fulfilled resp)) cancel
| no_response :
    r_phase rn = Applying →
    truthy (getResourcePatches (r_tabId rn) (r_resourceUrl rn) st) = true →
    r_snapshot rn = getResourcePatches (r_tabId rn) (r_resourceUrl rn) st →
    raises st r rn (PatchSettled r (Fulfilled RNullish)) TypeError
| write_fails e :
    r_phase rn = Committing →
    raises st r rn (UpdateSettled r (Rejected e)) e.


(** Every event but a change of the store made by its other users. *)
Definition internal (ev : event) : Prop := ∀ s, ev ≠ StoreChanged s.

(** ** A session in which one stylesheet is being edited *)

Definition demo_sessions : gmap Z session :=
  {[ 1 := {| patches := {[ "a.css" := VObj 7 ]} |} ]}.

Definition demo_newer_sessions : gmap Z session :=
  {[ 1 := {| patches := {[ "a.css" := VObj 8 ]} |} ]}.

Definition demo_no_session : gmap Z session := ∅.

Definition demo_run (p : phase) (snapshot : value) : run :=
  {| r_transaction := 0; r_tabId := 1; r_resourceUrl := "a.css";
     r_applyPatch := Some 10%nat; r_snapshot := snapshot; r_phase := p |}.

Definition demo_reading : state :=
  exec [Request 1 "a.css" 10%nat; Advance 1000; Fire 1%nat]
    (initial 0 demo_sessions).

Definition demo_applying : state :=
  step (ContentSettled 0 (Fulfilled "body{}")) demo_reading.

Definition demo_committing : state :=
  step (PatchSettled 0 (Fulfilled (RObject "body{color:red}"))) demo_applying.

Definition disk_full : jserror := {| code := None; message := "disk full" |}.

(** New patches arrive while [devtools.update] is pending. *)
Definition demo_patched_again : state :=
  step (StoreChanged demo_newer_sessions) demo_committing.

(** The claim that a restart starts the next run with no debounce delay:
    when the last [then] of [r] returns, having found patches, a run that
    did not exist before is in flight. *)
Definition restarts_without_delay (r : nat) (st : state) : Prop :=
  ∃ r', (length (runs st) ≤ r')%nat ∧ in_flight r' (complete r st).

(** ** A burst of requests to one key *)





(** ** The timer queue and the closures *)

(** Timer ids are fresh and distinct, and a pending [later] is the one its
    closure remembers in [timeout]. *)
Definition timers_wf (st : state) : Prop :=
  NoDup (tid <$> timers st) ∧
  (∀ tm, tm ∈ timers st → (tid tm < next_timer st)%nat) ∧
  (∀ tm h, tm ∈ timers st → cb tm = Later h →
     ∃ t, closures st !! h = Some t ∧ timeout t = Some (tid tm)).

(** A second request to the demo key while its run is applying the patch,
    and the state 1000 later. *)
Definition demo_second_request : state :=
  exec [Advance 1500; Request 1 "a.css" 11%nat] demo_applying.

Definition demo_overlap : state :=
  exec [Advance 2500; Fire 3%nat] demo_second_request.

(** ** The calls of one run *)

(** The phases in the order a run goes through them. *)
Definition rank (p : phase) : nat :=
  match p with Reading => 0 | Applying => 1 | Committing => 2 | Finished => 3 end.

(** What one turn of the event loop may do to the run [r]: the calls it adds
    to the log and where the chain is suspended before and after. *)
Inductive moves (r : nat) : option phase → list effect → option phase → Prop :=
| moves_none p : moves r p [] p
| moves_start tabId url :
    moves r None
      [ConsoleGroupCollapsed r tabId url; GetContent r tabId url]
      (Some Reading)
| moves_apply f content snapshot :
    moves r (Some Reading) [ApplyPatch r f content snapshot] (Some Applying)
| moves_commit tabId url content :
    moves r (Some Applying)
      [ConsoleInfo r "Resource patched, try to update content";
       DispatchReset r tabId url; Update r tabId url content]
      (Some Committing)
| moves_finish p l :
    p ≠ Finished →
    Forall (λ e, is_write e = false ∧ effect_run e = r) l →
    moves r (Some p) l (Some Finished).

(** The calls of [devtools.update] a run has made. *)
Definition writes_of (r : nat) (l : list effect) : list effect :=
  filter (λ e, is_write e = true ∧ effect_run e = r) l.

(** Every call of [devtools.update] comes right after the reset dispatched
    by the same run for the same resource. *)
Definition writes_guarded (l : list effect) : Prop :=
  ∀ l1 l2 r tabId url content,
    l = l1 ++ Update r tabId url content :: l2 →
    ∃ l0, l1 = l0 ++ [DispatchReset r tabId url].

(** What the event loop reaches keeps the log in this shape: calls of
    [devtools.update] are guarded, a run has made at most one, and none
    before it commits. *)
Definition log_inv (st : state) : Prop :=
  writes_guarded (log st) ∧
  ∀ r, (length (writes_of r (log st)) ≤ 1)%nat ∧
       (phase_of r st = None ∨ phase_of r st = Some Reading ∨
        phase_of r st = Some Applying → writes_of r (log st) = []).

(** ** The registry and the closures *)

(** A key of [transactions] leads to the closure created for it, a run
    belongs to a closure of the same resource, and no closure was last
    called in the future. *)
Definition registry_wf (st : state) : Prop :=
  (∀ k h, transactions st !! k = Some h →
     ∃ t, closures st !! h = Some t ∧
          getKey (t_tabId t) (t_resourceUrl t) = k) ∧
  (∀ r rn, runs st !! r = Some rn →
     ∃ t, closures st !! r_transaction rn = Some t ∧
          t_tabId t = r_tabId rn ∧ t_resourceUrl t = r_resourceUrl rn) ∧
  (∀ h t, closures st !! h = Some t → timestamp t ≤ now st).

(** From [st] to [st'] no key was added, no closure created or given
    another resource, and no run moved to another closure. *)
Definition evolves (st st' : state) : Prop :=
  now st ≤ now st' ∧
  (∀ k h, transactions st' !! k = Some h → transactions st !! k = Some h) ∧
  length (closures st') = length (closures st) ∧
  (∀ h t t', closures st !! h = Some t → closures st' !! h = Some t' →
     t_tabId t' = t_tabId t ∧ t_resourceUrl t' = t_resourceUrl t ∧
     (timestamp t' = timestamp t ∨ timestamp t' ≤ now st')) ∧
  (∀ r rn', runs st' !! r = Some rn' →
     (∃ rn, runs st !! r = Some rn ∧ r_transaction rn' = r_transaction rn ∧
            r_tabId rn' = r_tabId rn ∧ r_resourceUrl rn' = r_resourceUrl rn) ∨
     (∃ t, closures st !! r_transaction rn' = Some t ∧
           t_tabId t = r_tabId rn' ∧ t_resourceUrl t = r_resourceUrl rn')).

(** ** Keys *)

(** No ["+"] among the characters of a printed integer. *)
Fixpoint plus_free (s : string) : Prop :=
  match s with
  | EmptyString => True
  | String c s => c ≠ "+"%char ∧ plus_free s
  end.


(** ** The demo session after its write failed *)

Definition demo_failed : state :=
  step (UpdateSettled 0 (Rejected disk_full)) demo_committing.

(** * lib/utils.js: the helpers that compute *)

Module Utils.

(** [Array.prototype.indexOf]: the first index that holds a value strictly
    equal to [v], or -1.  (Values are those of [value]: no [NaN].) *)
Fixpoint indexOf_from (i : Z) (arr : list value) (v : value) : Z :=
  match arr with
  | [] => -1
  | x :: arr => if strict_eq x v then i else indexOf_from (i + 1) arr v
  end.

Definition indexOf (arr : list value) (v : value) : Z := indexOf_from 0 arr v.

(** [Array.prototype.filter], whose callback is given the value and its
    index. *)
Fixpoint filter_from (i : Z) (f : value → Z → bool) (arr : list value)
    : list value :=
  match arr with
  | [] => []
  | x :: arr =>
      if f x i then x :: filter_from (i + 1) f arr
      else filter_from (i + 1) f arr
  end.

(** [_uniqueHandler = (val, i, arr) => arr.indexOf(val) === i]. *)
Definition _uniqueHandler (val : value) (i : Z) (arr : list value) : bool :=
  indexOf arr val =? i.

(** [unique(arr) = arr.filter(_uniqueHandler)]. *)
Definition unique (arr : list value) : list value :=
  filter_from 0 (λ val i, _uniqueHandler val i arr) arr.

(** [obj[key]] for an own property.  An object is given as [Object.keys]
    walks it: its own enumerable properties in that order, each key once. *)
Definition prop (obj : list (string * value)) (key : string) : value :=
  match filter (λ p, p.1 = key) obj with
  | p :: _ => p.2
  | [] => VUndefined
  end.

(** [keyForValue(obj, value)]:
    [Object.keys(obj).reduce((out, key) => obj[key] === value ? key : out, null)];
    [None] is [null]. *)
Definition keyForValue (obj : list (string * value)) (v : value)
    : option string :=
  foldl (λ out key, if strict_eq (prop obj key) v then Some key else out)
    None (obj.*1).

(** Strings as JavaScript has them, sequences of UTF-16 code units. *)
Definition is_line_terminator (c : N) : bool :=
  ((c =? 10) || (c =? 13) || (c =? 8232) || (c =? 8233))%N.

(** Whether [.*$] matches the whole of [s]: [.] takes any code unit but a
    line terminator and [$], without the [m] flag, is the end of input. *)
Definition dot_star_end (s : list N) : bool :=
  forallb (λ c, negb (is_line_terminator c)) s.

(** [normalizeUrl(url) = url.replace(/#.*$/, '')]: the first match of the
    pattern starts at the first ["#"] (code unit 35) that [.*$] can follow,
    and reaches the end of the string. *)
Fixpoint normalizeUrl (url : list N) : list N :=
  match url with
  | [] => []
  | c :: rest =>
      if (c =? 35)%N && dot_star_end rest then []
      else c :: normalizeUrl rest
  end.

End Utils.

(** The values of [l] that are not in [seen], each at its first
    occurrence. *)
Fixpoint firsts (seen l : list value) : list value :=
  match l with
  | [] => []
  | x :: l =>
      if decide (x ∈ seen) then firsts (seen ++ [x]) l
      else x :: firsts (seen ++ [x]) l
  end.

(** * lib/utils.js: [debounce] and [throttle] around any function *)

Module Timing.

(** The variables of one closure returned by [debounce] or [throttle]
    ([c_stamp] is [timestamp] of the one and [previous] of the other), the
    timers of [later] it has pending, each with its id and due time, and the
    calls of [func] it has made, each with the time and the arguments. *)
Record closure := {
  c_now : Z;
  c_timeout : option nat;
  c_args : option nat;
  c_stamp : Z;
  c_timers : list (nat * Z);
  c_next : nat;
  c_calls : list (Z * option nat)
}.

Definition init (t0 : Z) : closure :=
  {| c_now := t0; c_timeout := None; c_args := None; c_stamp := 0;
     c_timers := []; c_next := 1%nat; c_calls := [] |}.

Definition set_now (t : Z) (c : closure) : closure :=
  {| c_now := t; c_timeout := c_timeout c; c_args := c_args c;
     c_stamp := c_stamp c; c_timers := c_timers c; c_next := c_next c;
     c_calls := c_calls c |}.

Definition set_timeout (o : option nat) (c : closure) : closure :=
  {| c_now := c_now c; c_timeout := o; c_args := c_args c;
     c_stamp := c_stamp c; c_timers := c_timers c; c_next := c_next c;
     c_calls := c_calls c |}.

Definition set_args (a : option nat) (c : closure) : closure :=
  {| c_now := c_now c; c_timeout := c_timeout c; c_args := a;
     c_stamp := c_stamp c; c_timers := c_timers c; c_next := c_next c;
     c_calls := c_calls c |}.

Definition set_stamp (t : Z) (c : closure) : closure :=
  {| c_now := c_now c; c_timeout := c_timeout c; c_args := c_args c;
     c_stamp := t; c_timers := c_timers c; c_next := c_next c;
     c_calls := c_calls c |}.

Definition set_timers (l : list (nat * Z)) (c : closure) : closure :=
  {| c_now := c_now c; c_timeout := c_timeout c; c_args := c_args c;
     c_stamp := c_stamp c; c_timers := l; c_next := c_next c;
     c_calls := c_calls c |}.

(** [func.apply(context, args)]. *)
Definition invoke (c : closure) : closure :=
  {| c_now := c_now c; c_timeout := c_timeout c; c_args := c_args c;
     c_stamp := c_stamp c; c_timers := c_timers c; c_next := c_next c;
     c_calls := c_calls c ++ [(c_now c, c_args c)] |}.

(** [timeout = setTimeout(later, delay)]. *)
Definition arm (delay : Z) (c : closure) : closure :=
  {| c_now := c_now c; c_timeout := Some (c_next c); c_args := c_args c;
     c_stamp := c_stamp c;
     c_timers := c_timers c ++ [(c_next c, c_now c + delay)];
     c_next := S (c_next c); c_calls := c_calls c |}.

(** [clearTimeout(timeout)]; the variable keeps its value. *)
Definition clearTimeout (c : closure) : closure :=
  match c_timeout c with
  | Some id => set_timers (filter (λ tm, tm.1 ≠ id) (c_timers c)) c
  | None => c
  end.

(** [later] of [debounce]. *)
Definition debounce_later (wait : Z) (immediate : bool) (c : closure) : closure :=
  let last := c_now c - c_stamp c in
  if (last <? wait) && (0 <=? last) then arm (wait - last) c
  else
    let c := set_timeout None c in
    if negb immediate then
      let c := invoke c in
      if c_timeout c is None then set_args None c else c
    else c.

(** The function [debounce] returns, called with [a]. *)
Definition debounce_call (wait : Z) (immediate : bool) (a : nat) (c : closure)
    : closure :=
  let c := set_stamp (c_now c) (set_args (Some a) c) in
  let callNow := immediate && bool_decide (c_timeout c = None) in
  let c := if c_timeout c is None then arm wait c else c in
  if callNow then set_args None (invoke c) else c.

(** [later] of [throttle]. *)
Definition throttle_later (c : closure) : closure :=
  invoke (set_timeout None (set_stamp (c_now c) c)).

(** The function [throttle] returns, called with [a]. *)
Definition throttle_call (wait : Z) (a : nat) (c : closure) : closure :=
  let remaining := wait - (c_now c - c_stamp c) in
  let c := set_args (Some a) c in
  if remaining <=? 0 then invoke (set_stamp (c_now c) (clearTimeout c))
  else if c_timeout c is None then arm remaining c
  else c.

Inductive wrapper :=
| Debounce (wait : Z) (immediate : bool)
| Throttle (wait : Z).

Inductive event :=
| Call (a : nat)
| Tick (t : Z)
| Fire (id : nat).

(** One turn of the event loop: a call of the returned function, the clock
    moving on, or a timer that is due firing. *)
Definition step (w : wrapper) (ev : event) (c : closure) : closure :=
  match ev with
  | Call a =>
      match w with
      | Debounce wait immediate => debounce_call wait immediate a c
      | Throttle wait => throttle_call wait a c
      end
  | Tick t => set_now (Z.max (c_now c) t) c
  | Fire id =>
      match filter (λ tm, tm.1 = id) (c_timers c) with
      | tm :: _ =>
          if tm.2 <=? c_now c then
            let c := set_timers (filter (λ tm, tm.1 ≠ id) (c_timers c)) c in
            match w with
            | Debounce wait immediate => debounce_later wait immediate c
            | Throttle _ => throttle_later c
            end
          else c
      | [] => c
      end
  end.

Definition exec (w : wrapper) (evs : list event) (c : closure) : closure :=
  foldl (λ c ev, step w ev c) c evs.

(** The times of the calls of [func]. *)
Definition times (c : closure) : list Z := (c_calls c).*1.

(** Each time is at least [wait] after the one before, [prev] first. *)
Fixpoint spaced (wait prev : Z) (l : list Z) : Prop :=
  match l with
  | [] => True
  | t :: l => prev + wait ≤ t ∧ spaced wait t l
  end.

(** Each time but the first is at least [wait] after the one before. *)
Definition gaps (wait : Z) (l : list Z) : Prop :=
  match l with
  | [] => True
  | t :: l => spaced wait t l
  end.

(** What [throttle] keeps true: the calls are spaced, [previous] is the
    time of the last one, and a pending timer is the one in [timeout], due
    [wait] after [previous]. *)
Definition throttle_inv (wait : Z) (c : closure) : Prop :=
  spaced wait 0 (times c) ∧
  c_stamp c = default 0 (last (times c)) ∧
  ∀ tm, tm ∈ c_timers c → c_timeout c = Some tm.1 ∧ tm.2 = c_stamp c + wait.

(** What [debounce] keeps true: the calls are spaced and none is after the
    clock; a pending timer is the one in [timeout]; while [timeout] is set
    no call of [func] is after [timestamp], which is not after the clock;
    and on the leading edge, once [timeout] is cleared, [wait] has passed
    since the last call of [func]. *)
Definition debounce_inv (wait : Z) (immediate : bool) (c : closure) : Prop :=
  gaps wait (times c) ∧
  (∀ tm, tm ∈ c_timers c → c_timeout c = Some tm.1) ∧
  (∀ t, t ∈ times c → t ≤ c_now c) ∧
  (is_Some (c_timeout c) →
     c_stamp c ≤ c_now c ∧ ∀ t, t ∈ times c → t ≤ c_stamp c) ∧
  (immediate = true → c_timeout c = None →
     ∀ t, t ∈ times c → t + wait ≤ c_now c).

(** The arguments of the latest call of the returned function. *)
Definition latest (evs : list event) : option nat :=
  foldl (λ o ev, if ev is Call a then Some a else o) None evs.

Definition is_call (ev : event) : bool :=
  if ev is Call _ then true else false.

(** The clock stays before [t]. *)
Definition before (t : Z) (ev : event) : Prop :=
  if ev is Tick t' then t' < t else True.

(** What both keep true: a pending [later] that calls [func] finds the
    arguments of the latest call in [args]. *)
Definition args_inv (w : wrapper) (evs : list event) (c : closure) : Prop :=
  c_timers c ≠ [] → (∀ wait, w ≠ Debounce wait true) →
  c_args c = latest evs ∧ is_Some (latest evs).

End Timing.

(** * Lemmas *)

(** ** The store *)

Lemma getResourcePatches_sessions tabId url st st' :
  sessions st' = sessions st →
  getResourcePatches tabId url st' = getResourcePatches tabId url st.
Proof. unfold getResourcePatches. by intros ->. Qed.

Lemma getResourcePatches_reset tabId url s st :
  sessions st = reset_resource_patches tabId url s →
  getResourcePatches tabId url st = VNull.
Proof.
  intros E. unfold getResourcePatches. rewrite E.
  unfold reset_resource_patches. rewrite lookup_alter_eq. destruct (s !! tabId) as [ss|]; cbn; [|done].
  unfold map_get. by rewrite lookup_delete_eq.
Qed.

(** ** Runs *)

Lemma phase_of_Some r st p :
  phase_of r st = Some p ↔ ∃ rn, runs st !! r = Some rn ∧ r_phase rn = p.
Proof.
  unfold phase_of. destruct (runs st !! r) as [rn|]; cbn; split.
  - intros [= <-]. eauto.
  - by intros (? & [= <-] & <-).
  - done.
  - by intros (? & ? & _).
Qed.

Lemma in_phase_true r st p : in_phase r p st = true ↔ phase_of r st = Some p.
Proof. unfold in_phase. apply bool_decide_eq_true. Qed.

(** ** [debounced] *)

Section debounced_frame.
Context (h : nat) (a : option fn) (st : state).

Lemma debounced_log : log (debounced h a st) = log st.
Proof. unfold debounced, setTimeout. repeat case_match; reflexivity. Qed.

Lemma debounced_runs : runs (debounced h a st) = runs st.
Proof. unfold debounced, setTimeout. repeat case_match; reflexivity. Qed.

Lemma debounced_sessions : sessions (debounced h a st) = sessions st.
Proof. unfold debounced, setTimeout. repeat case_match; reflexivity. Qed.

Lemma debounced_transactions :
  transactions (debounced h a st) = transactions st.
Proof. unfold debounced, setTimeout. repeat case_match; reflexivity. Qed.

Lemma debounced_now : now (debounced h a st) = now st.
Proof. unfold debounced, setTimeout. repeat case_match; reflexivity. Qed.
End debounced_frame.

(** A call while the timer is pending overwrites [args] and [timestamp]
    and nothing else. *)
Lemma debounced_pending h a st t id :
  closures st !! h = Some t → timeout t = Some id →
  debounced h a st =
    set_closure h {| t_tabId := t_tabId t; t_resourceUrl := t_resourceUrl t;
                     timeout := Some id; args := a; timestamp := now st |} st.
Proof.
  intros Ht Hid. unfold debounced, with_timestamp, with_args. rewrite Ht.
  cbn. rewrite Hid. reflexivity.
Qed.

(** A call while no timer is pending arms one for the whole quiet period. *)
Lemma debounced_idle h a st t :
  closures st !! h = Some t → timeout t = None →
  debounced h a st =
    set_closure h {| t_tabId := t_tabId t; t_resourceUrl := t_resourceUrl t;
                     timeout := Some (next_timer st); args := a;
                     timestamp := now st |}
      (snd (setTimeout (Later h) updateDebounce st)).
Proof.
  intros Ht Hid. unfold debounced, with_timestamp, with_args. rewrite Ht.
  cbn. rewrite Hid. reflexivity.
Qed.

Lemma debounced_closure h a st t :
  closures st !! h = Some t →
  ∃ t', closures (debounced h a st) !! h = Some t' ∧
        args t' = a ∧ timestamp t' = now st ∧ is_Some (timeout t') ∧
        t_tabId t' = t_tabId t ∧ t_resourceUrl t' = t_resourceUrl t.
Proof.
  intros Ht. pose proof (lookup_lt_Some _ _ _ Ht) as Hlt.
  destruct (timeout t) as [id|] eqn:E.
  - rewrite (debounced_pending _ _ _ _ _ Ht E). cbn.
    rewrite list_lookup_insert_eq by done. eauto 10.
  - rewrite (debounced_idle _ _ _ _ Ht E). cbn.
    rewrite list_lookup_insert_eq by done. eauto 10.
Qed.

(** ** The completion recheck *)

Lemma complete_unfold r rn st :
  runs st !! r = Some rn →
  complete r st =
    let st1 := emit (ConsoleGroupEnd r) (set_run r (finish rn) st) in
    if truthy (getResourcePatches (r_tabId rn) (r_resourceUrl rn) st) then
      debounced (r_transaction rn) (r_applyPatch rn)
        (emit (ConsoleInfo r "Pending patches, restart transaction for") st1)
    else set_transactions (delete (key_of rn) (transactions st)) st1.
Proof. intros H. unfold complete. rewrite H. reflexivity. Qed.

Lemma complete_sessions r st : sessions (complete r st) = sessions st.
Proof.
  unfold complete. repeat case_match; try reflexivity.
  by rewrite debounced_sessions.
Qed.

Lemma complete_now r st : now (complete r st) = now st.
Proof.
  unfold complete. repeat case_match; try reflexivity.
  by rewrite debounced_now.
Qed.

Lemma complete_runs r rn st :
  runs st !! r = Some rn → runs (complete r st) = <[r := finish rn]> (runs st).
Proof.
  intros H. rewrite (complete_unfold _ _ _ H). cbn zeta.
  case_match; [by rewrite debounced_runs|done].
Qed.

Lemma complete_log r rn st :
  runs st !! r = Some rn →
  log (complete r st) =
    log st ++ ConsoleGroupEnd r ::
      (if truthy (getResourcePatches (r_tabId rn) (r_resourceUrl rn) st)
       then [ConsoleInfo r "Pending patches, restart transaction for"] else []).
Proof.
  intros H. rewrite (complete_unfold _ _ _ H). cbn zeta.
  case_match; [rewrite debounced_log|]; cbn; by rewrite <- ?app_assoc.
Qed.

Lemma complete_transactions r rn st :
  runs st !! r = Some rn →
  transactions (complete r st) =
    if truthy (getResourcePatches (r_tabId rn) (r_resourceUrl rn) st)
    then transactions st else delete (key_of rn) (transactions st).
Proof.
  intros H. rewrite (complete_unfold _ _ _ H). cbn zeta.
  case_match; [by rewrite debounced_transactions|done].
Qed.

Lemma complete_phase r rn st :
  runs st !! r = Some rn → phase_of r (complete r st) = Some Finished.
Proof.
  intros H. unfold phase_of. rewrite (complete_runs _ _ _ H).
  rewrite list_lookup_insert_eq; [done|]. by eapply lookup_lt_Some.
Qed.

Lemma complete_restart r rn t st :
  runs st !! r = Some rn → closures st !! r_transaction rn = Some t →
  truthy (getResourcePatches (r_tabId rn) (r_resourceUrl rn) st) = true →
  ∃ t', closures (complete r st) !! r_transaction rn = Some t' ∧
        args t' = r_applyPatch rn ∧ timestamp t' = now st ∧
        is_Some (timeout t').
Proof.
  intros H Ht Hp. rewrite (complete_unfold _ _ _ H). cbn zeta. rewrite Hp.
  edestruct debounced_closure as (t' & ? & ? & ? & ? & _); [|eauto]. exact Ht.
Qed.

Lemma complete_done r rn st :
  runs st !! r = Some rn →
  truthy (getResourcePatches (r_tabId rn) (r_resourceUrl rn) st) = false →
  closures (complete r st) = closures st ∧ timers (complete r st) = timers st.
Proof.
  intros H Hp. rewrite (complete_unfold _ _ _ H). cbn zeta. by rewrite Hp.
Qed.

(** ** The [catch] boundary *)

Lemma caught_log r e st :
  log (caught r e st) =
    log st ++ (if bool_decide (code e = Some "ECANCEL") then []
               else [ConsoleError r e]).
Proof.
  unfold caught. destruct (decide (code e = Some "ECANCEL")) as [E|E].
  - rewrite bool_decide_eq_false_2 by (intros ?; done).
    rewrite bool_decide_eq_true_2 by done. by rewrite app_nil_r.
  - rewrite bool_decide_eq_true_2 by done.
    by rewrite bool_decide_eq_false_2 by done.
Qed.

Lemma caught_frame r e st :
  runs (caught r e st) = runs st ∧ sessions (caught r e st) = sessions st ∧
  transactions (caught r e st) = transactions st ∧
  closures (caught r e st) = closures st ∧ timers (caught r e st) = timers st ∧
  now (caught r e st) = now st.
Proof. unfold caught. by case_match. Qed.

Lemma rejected_log r rn e st :
  runs st !! r = Some rn →
  log (rejected r e st) =
    log st ++
      (if bool_decide (code e = Some "ECANCEL") then [] else [ConsoleError r e]) ++
      ConsoleGroupEnd r ::
      (if truthy (getResourcePatches (r_tabId rn) (r_resourceUrl rn) st)
       then [ConsoleInfo r "Pending patches, restart transaction for"] else []).
Proof.
  intros H. unfold rejected.
  destruct (caught_frame r e st) as (Hr & Hs & _).
  rewrite (complete_log r rn) by by rewrite Hr.
  rewrite caught_log, (getResourcePatches_sessions _ _ st) by done.
  by rewrite <- app_assoc.
Qed.

Lemma rejected_state r rn e st :
  runs st !! r = Some rn →
  let st' := rejected r e st in
  runs st' = <[r := finish rn]> (runs st) ∧
  sessions st' = sessions st ∧ now st' = now st ∧
  transactions st' =
    (if truthy (getResourcePatches (r_tabId rn) (r_resourceUrl rn) st)
     then transactions st else delete (key_of rn) (transactions st)).
Proof.
  intros H. unfold rejected. cbn zeta.
  destruct (caught_frame r e st) as (Hr & Hs & Ht & Hc & Htm & Hn).
  rewrite (complete_runs r rn), complete_sessions, complete_now,
    (complete_transactions r rn) by by rewrite Hr.
  rewrite (getResourcePatches_sessions _ _ st) by done.
  by rewrite Hr, Hs, Ht, Hn.
Qed.

Lemma rejected_restart r rn t e st :
  runs st !! r = Some rn → closures st !! r_transaction rn = Some t →
  truthy (getResourcePatches (r_tabId rn) (r_resourceUrl rn) st) = true →
  ∃ t', closures (rejected r e st) !! r_transaction rn = Some t' ∧
        args t' = r_applyPatch rn ∧ timestamp t' = now st ∧
        is_Some (timeout t').
Proof.
  intros H Ht Hp. unfold rejected.
  destruct (caught_frame r e st) as (Hr & Hs & _ & Hc & _ & Hn).
  rewrite <- Hn. eapply complete_restart.
  - by rewrite Hr.
  - by rewrite Hc.
  - by rewrite (getResourcePatches_sessions _ _ st).
Qed.

(** Every failure is handed to [rejected] in a state that differs from the
    one the event arrived in by what the handler did before it threw. *)
Lemma raises_rejected st r rn ev e :
  runs st !! r = Some rn → raises st r rn ev e →
  ∃ st0 rn0 pre,
    step ev st = rejected r e st0 ∧
    runs st0 !! r = Some rn0 ∧
    r_tabId rn0 = r_tabId rn ∧ r_resourceUrl rn0 = r_resourceUrl rn ∧
    r_transaction rn0 = r_transaction rn ∧ r_applyPatch rn0 = r_applyPatch rn ∧
    log st0 = log st ++ pre ∧
    Forall (λ x, is_error x = false ∧ is_write x = false ∧ effect_run x = r) pre ∧
    transactions st0 = transactions st ∧ closures st0 = closures st ∧
    now st0 = now st.
Proof.
  intros H Hr.
  assert (Hlt : (r < length (runs st))%nat) by by eapply lookup_lt_Some.
  destruct Hr as [e Hp|c Hp Hs|c Hp Hs Ha|e Hp|tm Hp Hd Hc|resp Hp Hs|Hp Hs Heq|e Hp];
    cbn [step]; unfold fire, run_callback;
    try rewrite Hd; try rewrite Hc;
    (rewrite (proj2 (in_phase_true _ _ _));
     [|apply phase_of_Some; eexists; split; [eassumption|done]]).
  - exists st, rn, []. rewrite app_nil_r. by repeat split.
  - unfold onContent. rewrite H, Hs. cbn [negb].
    eexists _, _, [_]. split; [reflexivity|]. cbn.
    rewrite list_lookup_insert_eq by done. repeat split; eauto; by repeat constructor.
  - unfold onContent. rewrite H, Hs, Ha. cbn [negb].
    eexists _, _, []. split; [reflexivity|]. cbn.
    rewrite list_lookup_insert_eq by done. rewrite app_nil_r. repeat split; eauto.
  - exists st, rn, []. rewrite app_nil_r. by repeat split.
  - eexists _, rn, []. split; [reflexivity|]. cbn. rewrite app_nil_r. repeat split; auto.
  - unfold onPatched. rewrite H. cbn zeta.
    rewrite (getResourcePatches_sessions _ _ st) by done. rewrite Hs. cbn [negb].
    eexists _, rn, [_; _]. split; [reflexivity|]. cbn.
    rewrite <- app_assoc. repeat split; eauto; by repeat constructor.
  - unfold onPatched. rewrite H. cbn zeta.
    rewrite (getResourcePatches_sessions _ _ st) by done. rewrite Hs. cbn [negb].
    unfold strict_eq. rewrite bool_decide_eq_true_2 by done.
    eexists _, rn, [_; _]. split; [reflexivity|]. cbn.
    rewrite <- app_assoc. repeat split; eauto; by repeat constructor.
  - exists st, rn, []. rewrite app_nil_r. by repeat split.
Qed.

(** ** Which run an event concerns *)

Ltac acts_prim :=
  split;
  [ eexists; split;
    [ cbn; rewrite <- ?app_assoc; first [reflexivity|symmetry; apply app_nil_r]
    | by repeat constructor ]
  | intros; cbn; by rewrite ?list_lookup_insert_ne by done ].

Lemma acts_on_refl r st : acts_on r st st.
Proof. split; [exists []; by rewrite app_nil_r|done]. Qed.

Lemma acts_on_trans r st1 st2 st3 :
  acts_on r st1 st2 → acts_on r st2 st3 → acts_on r st1 st3.
Proof.
  intros [(l1 & E1 & F1) R1] [(l2 & E2 & F2) R2]. split.
  - exists (l1 ++ l2). rewrite E2, E1, app_assoc. split; [done|].
    by apply Forall_app.
  - intros r' Hr'. by rewrite R2, R1.
Qed.

Lemma acts_on_quiet r st st' :
  log st' = log st → runs st' = runs st → acts_on r st st'.
Proof.
  intros El Er. split; [exists []; by rewrite app_nil_r|by rewrite Er].
Qed.

Lemma acts_on_emit r e st : effect_run e = r → acts_on r st (emit e st).
Proof. intros E. split; [exists [e]; by repeat constructor|done]. Qed.

Lemma acts_on_set_run r rn st : acts_on r st (set_run r rn st).
Proof.
  split; [exists []; by rewrite app_nil_r|].
  intros r' Hr'. cbn. by rewrite list_lookup_insert_ne.
Qed.

Lemma acts_on_debounced r h a st : acts_on r st (debounced h a st).
Proof. apply acts_on_quiet; [apply debounced_log|apply debounced_runs]. Qed.

Lemma acts_on_complete r st : acts_on r st (complete r st).
Proof.
  unfold complete. destruct (runs st !! r) as [rn|]; [|apply acts_on_refl].
  cbn zeta. eapply acts_on_trans; [apply acts_on_set_run|].
  case_match.
  - eapply acts_on_trans; [by apply (acts_on_emit r (ConsoleGroupEnd r))|].
    eapply acts_on_trans; [|apply acts_on_debounced]. by apply acts_on_emit.
  - eapply acts_on_trans; [by apply (acts_on_emit r (ConsoleGroupEnd r))|].
    by apply acts_on_quiet.
Qed.

Lemma acts_on_caught r e st : acts_on r st (caught r e st).
Proof. unfold caught. case_match; [by apply acts_on_emit|apply acts_on_refl]. Qed.

Lemma acts_on_rejected r e st : acts_on r st (rejected r e st).
Proof.
  eapply acts_on_trans; [apply acts_on_caught|apply acts_on_complete].
Qed.

Lemma acts_on_onContent r c st : acts_on r st (onContent r c st).
Proof.
  unfold onContent. destruct (runs st !! r) as [rn|]; [|apply acts_on_refl].
  cbn zeta. eapply acts_on_trans; [apply acts_on_set_run|].
  case_match.
  - eapply acts_on_trans; [|apply acts_on_rejected]. by apply acts_on_emit.
  - case_match; [|apply acts_on_rejected].
    unfold rejectOnTimeout, setTimeout. lazy beta iota zeta.
    eapply acts_on_trans; [|apply acts_on_set_run].
    split; [eexists [_]; split; [reflexivity|by repeat constructor]|done].
Qed.

Lemma acts_on_onPatched r resp st : acts_on r st (onPatched r resp st).
Proof.
  unfold onPatched. destruct (runs st !! r) as [rn|]; [|apply acts_on_refl].
  cbn zeta. case_match; [|case_match; [destruct resp|]].
  - eapply acts_on_trans; [|apply acts_on_rejected]. acts_prim.
  - eapply acts_on_trans; [|apply acts_on_rejected]. acts_prim.
  - acts_prim.
  - eapply acts_on_trans; [|apply acts_on_complete]. acts_prim.
Qed.

Lemma acts_on_pipeline h a st : acts_on (length (runs st)) st (pipeline h a st).
Proof.
  unfold pipeline. destruct (closures st !! h) as [t|]; [|apply acts_on_refl].
  split.
  - eexists [_; _]. cbn. rewrite <- app_assoc. split; [reflexivity|].
    by repeat constructor.
  - intros r' Hr'. cbn. destruct (decide (r' < length (runs st))%nat).
    + by rewrite lookup_app_l.
    + rewrite !lookup_ge_None_2; [done|lia|rewrite length_app; cbn; lia].
Qed.

Lemma acts_on_later h st : acts_on (length (runs st)) st (later h st).
Proof.
  unfold later. destruct (closures st !! h) as [t|]; [|apply acts_on_refl].
  cbn zeta. case_match.
  - unfold setTimeout. by apply acts_on_quiet.
  - set (st1 := set_closure h (with_timeout None t) st).
    assert (H1 : acts_on (length (runs st)) st (pipeline h (args t) st1)).
    { eapply acts_on_trans; [|apply (acts_on_pipeline h (args t) st1)].
      by apply acts_on_quiet. }
    repeat case_match;
      first [exact H1|eapply acts_on_trans; [exact H1|by apply acts_on_quiet]].
Qed.

(** Every event concerns one run, which is not finished. *)
Lemma step_acts_on ev st :
  ∃ r, acts_on r st (step ev st) ∧ phase_of r st ≠ Some Finished.
Proof.
  assert (Hnew : phase_of (length (runs st)) st ≠ Some Finished).
  { unfold phase_of. by rewrite lookup_ge_None_2. }
  destruct ev as [t|id|tab url f|r s|r s|r s|s]; cbn [step].
  - exists (length (runs st)). split; [by apply acts_on_quiet|done].
  - unfold fire. destruct (due_timer id st) as [tm|];
      [|exists (length (runs st)); split; [apply acts_on_refl|done]].
    destruct (cb tm) as [h|r]; cbn [run_callback].
    + exists (length (runs st)). split; [|done].
      eapply acts_on_trans; [|apply (acts_on_later h (set_timers _ st))].
      by apply acts_on_quiet.
    + destruct (in_phase r Applying _) eqn:E.
      * exists r. split.
        -- eapply acts_on_trans; [|apply acts_on_rejected]. by apply acts_on_quiet.
        -- apply in_phase_true in E. unfold phase_of in *. cbn in E. by rewrite E.
      * exists (length (runs st)). split; [by apply acts_on_quiet|done].
  - exists (length (runs st)). split; [|done].
    unfold requestUpdateTransaction. cbn zeta.
    set (st1 := if transactions st !! _ is None then _ else _).
    assert (acts_on (length (runs st)) st st1).
    { unfold st1. case_match; [apply acts_on_refl|by apply acts_on_quiet]. }
    case_match; [|done]. eapply acts_on_trans; [done|apply acts_on_debounced].
  - destruct (in_phase r Reading st) eqn:E.
    + apply in_phase_true in E. exists r. split; [|by rewrite E].
      destruct s; [apply acts_on_onContent|apply acts_on_rejected].
    + exists (length (runs st)). split; [apply acts_on_refl|done].
  - destruct (in_phase r Applying st) eqn:E.
    + apply in_phase_true in E. exists r. split; [|by rewrite E].
      destruct s; [apply acts_on_onPatched|apply acts_on_rejected].
    + exists (length (runs st)). split; [apply acts_on_refl|done].
  - destruct (in_phase r Committing st) eqn:E.
    + apply in_phase_true in E. exists r. split; [|by rewrite E].
      destruct s; [apply acts_on_complete|apply acts_on_rejected].
    + exists (length (runs st)). split; [apply acts_on_refl|done].
  - exists (length (runs st)). split; [by apply acts_on_quiet|done].
Qed.

(** A finished run stays finished and makes no further call. *)
Lemma finished_step r ev st :
  phase_of r st = Some Finished →
  phase_of r (step ev st) = Some Finished ∧
  ∃ l, log (step ev st) = log st ++ l ∧ Forall (λ e, effect_run e ≠ r) l.
Proof.
  intros Hf. destruct (step_acts_on ev st) as (r' & [(l & El & Fl) Hr] & Hp).
  assert (r ≠ r') by (intros ->; done). split.
  - unfold phase_of in *. by rewrite Hr.
  - exists l. split; [done|]. eapply Forall_impl; [exact Fl|]. cbn. congruence.
Qed.

Lemma exec_cons ev evs st : exec (ev :: evs) st = exec evs (step ev st).
Proof. reflexivity. Qed.

Lemma finished_exec r evs : ∀ st,
  phase_of r st = Some Finished →
  phase_of r (exec evs st) = Some Finished ∧
  ∃ l, log (exec evs st) = log st ++ l ∧ Forall (λ e, effect_run e ≠ r) l.
Proof.
  induction evs as [|ev evs IH]; intros st Hf.
  - split; [done|]. exists []. by rewrite app_nil_r.
  - rewrite exec_cons. destruct (finished_step r ev st Hf) as (Hf' & l1 & E1 & F1).
    destruct (IH _ Hf') as (Hf'' & l2 & E2 & F2). split; [done|].
    exists (l1 ++ l2). rewrite E2, E1, app_assoc. split; [done|].
    by apply Forall_app.
Qed.

Lemma raises_outcome st r rn ev e :
  runs st !! r = Some rn → raises st r rn ev e →
  let st' := step ev st in
  let pending := truthy (getResourcePatches (r_tabId rn) (r_resourceUrl rn) st') in
  (∃ pre,
     log st' =
       log st ++ pre ++
         (if bool_decide (code e = Some "ECANCEL") then [] else [ConsoleError r e]) ++
         ConsoleGroupEnd r ::
         (if pending then [ConsoleInfo r "Pending patches, restart transaction for"]
          else []) ∧
     Forall (λ x, is_error x = false ∧ is_write x = false ∧ effect_run x = r) pre) ∧
  phase_of r st' = Some Finished ∧ now st' = now st ∧
  transactions st' =
    (if pending then transactions st else delete (key_of rn) (transactions st)) ∧
  (pending = true → ∀ t, closures st !! r_transaction rn = Some t →
     ∃ t', closures st' !! r_transaction rn = Some t' ∧
           args t' = r_applyPatch rn ∧ timestamp t' = now st ∧
           is_Some (timeout t')).
Proof.
  intros H Hr.
  destruct (raises_rejected _ _ _ _ _ H Hr)
    as (st0 & rn0 & pre & -> & H0 & Etab & Eurl & Eh & Ea & El & Fpre & Et & Ec & En).
  cbn zeta.
  destruct (rejected_state r rn0 e st0 H0) as (Hruns & Hs & Hn & Htr).
  rewrite (getResourcePatches_sessions _ _ st0) by done.
  rewrite Etab, Eurl in Htr.
  assert (Ek : key_of rn0 = key_of rn) by (unfold key_of; by rewrite Etab, Eurl).
  split; [|split; [|split; [|split]]].
  - exists pre. split; [|done].
    rewrite (rejected_log r rn0) by done. rewrite El, Etab, Eurl.
    by rewrite <- !app_assoc.
  - unfold phase_of. rewrite Hruns, list_lookup_insert_eq; [done|].
    by eapply lookup_lt_Some.
  - by rewrite Hn.
  - by rewrite Htr, Ek, Et.
  - intros Hp t Ht. rewrite <- Eh, <- Ea, <- En.
    eapply rejected_restart; [done|by rewrite Ec, Eh|by rewrite Etab, Eurl].
Qed.

Lemma rejected_done r rn e st :
  runs st !! r = Some rn →
  truthy (getResourcePatches (r_tabId rn) (r_resourceUrl rn) st) = false →
  closures (rejected r e st) = closures st ∧ timers (rejected r e st) = timers st.
Proof.
  intros H Hp. unfold rejected.
  destruct (caught_frame r e st) as (Hr & Hs & _ & Hc & Htm & _).
  rewrite <- Hc, <- Htm. apply (complete_done r rn); [by rewrite Hr|].
  by rewrite (getResourcePatches_sessions _ _ st).
Qed.

(** The second [then] when the snapshot is still the one applied. *)
Lemma onPatched_commit r rn content st :
  runs st !! r = Some rn →
  truthy (getResourcePatches (r_tabId rn) (r_resourceUrl rn) st) = true →
  r_snapshot rn = getResourcePatches (r_tabId rn) (r_resourceUrl rn) st →
  onPatched r (RObject content) st =
    set_run r (with_phase Committing rn)
      (emit (Update r (r_tabId rn) (r_resourceUrl rn) content)
         (dispatch_reset r (r_tabId rn) (r_resourceUrl rn)
            (emit (ConsoleInfo r "Resource patched, try to update content") st))).
Proof.
  intros H Hp Hs. unfold onPatched. rewrite H. cbn zeta.
  rewrite (getResourcePatches_sessions _ _ st) by done. rewrite Hp. cbn [negb].
  unfold strict_eq. by rewrite bool_decide_eq_true_2.
Qed.

(** The second [then] when the snapshot changed while applying. *)
Lemma onPatched_stale r rn resp st :
  runs st !! r = Some rn →
  r_snapshot rn ≠ getResourcePatches (r_tabId rn) (r_resourceUrl rn) st →
  onPatched r resp st =
    let st1 := emit (ConsoleInfo r "Resource patched, try to update content") st in
    if truthy (getResourcePatches (r_tabId rn) (r_resourceUrl rn) st) then
      complete r st1
    else
      rejected r cancel
        (emit (ConsoleInfo r "Session destroyed when patching resource, abort") st1).
Proof.
  intros H Hs. unfold onPatched. rewrite H. cbn zeta.
  rewrite (getResourcePatches_sessions _ _ st) by done.
  destruct (truthy _); cbn [negb]; [|done].
  unfold strict_eq. by rewrite bool_decide_eq_false_2.
Qed.

(** The first [then] when there are patches to apply. *)
Lemma onContent_apply r rn f content st :
  runs st !! r = Some rn → r_applyPatch rn = Some f →
  truthy (getResourcePatches (r_tabId rn) (r_resourceUrl rn) st) = true →
  let snapshot := getResourcePatches (r_tabId rn) (r_resourceUrl rn) st in
  onContent r content st =
    set_run r (with_phase Applying (with_snapshot snapshot rn))
      (snd (setTimeout (RejectOnTimeout r) 10000
              (emit (ApplyPatch r f content snapshot)
                 (set_run r (with_snapshot snapshot rn) st)))).
Proof.
  intros H Hf Hp. unfold onContent. rewrite H. cbn zeta. rewrite Hp, Hf.
  reflexivity.
Qed.

(** Only the reset dispatched by a commit and the other users of the store
    change the sessions. *)
Lemma later_sessions h st : sessions (later h st) = sessions st.
Proof.
  unfold later, pipeline, setTimeout. cbn.
  repeat (case_match; cbn; simplify_eq; try done).
Qed.

Lemma rejected_sessions r e st : sessions (rejected r e st) = sessions st.
Proof.
  unfold rejected. rewrite complete_sessions. apply caught_frame.
Qed.

Lemma step_sessions ev st :
  (∀ s, ev ≠ StoreChanged s) →
  sessions (step ev st) = sessions st ∨
  ∃ tabId uri, sessions (step ev st) = reset_resource_patches tabId uri (sessions st).
Proof.
  intros Hev. destruct ev as [t|id|tab url f|r s|r s|r s|s]; cbn [step].
  - by left.
  - left. unfold fire, run_callback. repeat case_match; try done.
    + by rewrite later_sessions.
    + by rewrite rejected_sessions.
  - left. unfold requestUpdateTransaction, createTransaction. cbn zeta.
    repeat case_match; try done; by rewrite debounced_sessions.
  - left. case_match; [|done]. destruct s; [|apply rejected_sessions].
    unfold onContent, rejectOnTimeout, setTimeout.
    repeat case_match; try done; by rewrite rejected_sessions.
  - case_match; [|by left]. destruct s; [|left; apply rejected_sessions].
    unfold onPatched. destruct (runs st !! r) as [rn|]; [|by left].
    cbn zeta. repeat case_match.
    + left. by rewrite rejected_sessions.
    + right. rewrite rejected_sessions. cbn. eauto.
    + right. cbn. eauto.
    + left. by rewrite complete_sessions.
  - left. case_match; [|done].
    destruct s; [apply complete_sessions|apply rejected_sessions].
  - by destruct (Hev s).
Qed.

Lemma reset_keeps_none tabId url tabId' uri st s :
  sessions st = reset_resource_patches tabId' uri s →
  (∀ st0, sessions st0 = s → getResourcePatches tabId url st0 = VNull) →
  getResourcePatches tabId url st = VNull.
Proof.
  intros E H0.
  specialize (H0 (set_sessions s st) eq_refl).
  unfold getResourcePatches in *. cbn in H0. rewrite E.
  unfold reset_resource_patches. rewrite lookup_alter.
  case_decide as Ht; [subst tabId'|done].
  destruct (s !! tabId) as [ss|]; cbn in *; [|done].
  unfold map_get in *. rewrite lookup_delete.
  case_decide; [done|]. done.
Qed.

(** A backlog the module found empty or cleared is filled again by the
    other users of the store only. *)
Lemma cleared_step tabId url ev st :
  (∀ s, ev ≠ StoreChanged s) →
  getResourcePatches tabId url st = VNull →
  getResourcePatches tabId url (step ev st) = VNull.
Proof.
  intros Hev H0. destruct (step_sessions ev st Hev) as [E|(tab' & uri & E)].
  - by rewrite (getResourcePatches_sessions _ _ st).
  - eapply reset_keeps_none; [exact E|]. intros st0 E0.
    by rewrite (getResourcePatches_sessions _ _ st).
Qed.

Lemma cleared_exec tabId url evs : ∀ st,
  Forall internal evs →
  getResourcePatches tabId url st = VNull →
  getResourcePatches tabId url (exec evs st) = VNull.
Proof.
  induction evs as [|ev evs IH]; intros st Hevs H0; [done|].
  rewrite exec_cons. apply Forall_cons in Hevs as [Hev Hevs].
  apply IH; [done|]. by apply cleared_step.
Qed.

Lemma due_timer_Some id st tm :
  due_timer id st = Some tm → tm ∈ timers st ∧ tid tm = id ∧ due tm ≤ now st.
Proof.
  unfold due_timer. destruct (filter _ _) as [|tm' l] eqn:E; [done|].
  destruct (due tm' <=? now st) eqn:Hd; [|done]. intros [= ->].
  assert (Hin : tm ∈ filter (λ tm, tid tm = id) (timers st))
    by (rewrite E; left).
  apply list_elem_of_filter in Hin as [? ?]. split; [done|split; [done|lia]].
Qed.

(** ** [later] *)

(** Fired within the quiet period of the last call, [later] starts nothing
    and waits for the rest of the period. *)
Lemma later_waits h t st :
  closures st !! h = Some t →
  0 ≤ now st - timestamp t < updateDebounce →
  later h st =
    set_closure h (with_timeout (Some (next_timer st)) t)
      (snd (setTimeout (Later h) (updateDebounce - (now st - timestamp t)) st)).
Proof.
  intros Ht Hq. unfold later. rewrite Ht. cbn zeta.
  rewrite (proj2 (andb_true_iff _ _)); [done|]. split; [lia|lia].
Qed.

(** Fired after the quiet period, [later] calls the pipeline with the last
    [args], whatever the earlier runs are doing. *)
Lemma later_starts h t st :
  closures st !! h = Some t →
  ¬ (0 ≤ now st - timestamp t < updateDebounce) →
  later h st =
    set_closure h (with_args None (with_timeout None t))
      (pipeline h (args t) (set_closure h (with_timeout None t) st)).
Proof.
  intros Ht Hq. pose proof (lookup_lt_Some _ _ _ Ht) as Hlt.
  unfold later. rewrite Ht. cbn zeta.
  rewrite (proj2 (andb_false_iff _ _)) by lia.
  set (st1 := set_closure h (with_timeout None t) st).
  assert (H1 : closures st1 !! h = Some (with_timeout None t)).
  { unfold st1. cbn. by rewrite list_lookup_insert_eq. }
  assert (H2 : closures (pipeline h (args t) st1) = closures st1).
  { unfold pipeline. by rewrite H1. }
  by rewrite H2, H1.
Qed.

Lemma later_starts_run h t st :
  closures st !! h = Some t →
  ¬ (0 ≤ now st - timestamp t < updateDebounce) →
  runs (later h st) =
    runs st ++ [{| r_transaction := h; r_tabId := t_tabId t;
                   r_resourceUrl := t_resourceUrl t; r_applyPatch := args t;
                   r_snapshot := VUndefined; r_phase := Reading |}].
Proof.
  intros Ht Hq. pose proof (lookup_lt_Some _ _ _ Ht) as Hlt.
  rewrite (later_starts h t st Ht Hq). unfold pipeline. cbn.
  by rewrite list_lookup_insert_eq.
Qed.

Lemma complete_timers r rn t st :
  runs st !! r = Some rn → closures st !! r_transaction rn = Some t →
  truthy (getResourcePatches (r_tabId rn) (r_resourceUrl rn) st) = true →
  timers (complete r st) =
    if timeout t is None then
      timers st ++ [{| tid := next_timer st; due := now st + updateDebounce;
                       cb := Later (r_transaction rn) |}]
    else timers st.
Proof.
  intros H Ht Hp. rewrite (complete_unfold _ _ _ H). cbn zeta. rewrite Hp.
  destruct (timeout t) as [id|] eqn:E.
  - by rewrite (debounced_pending _ _ _ t id).
  - by rewrite (debounced_idle _ _ _ t).
Qed.

(** ** A burst of requests *)



Section burst.
Context (s : gmap Z session) (tabId : Z) (url : string).









End burst.

(** ** The timer queue *)

(** What does not touch the queue nor the closures keeps it well formed. *)
Lemma timers_wf_frame st st' :
  timers st' = timers st → next_timer st' = next_timer st →
  closures st' = closures st → timers_wf st → timers_wf st'.
Proof. unfold timers_wf. by intros -> -> ->. Qed.

Lemma timers_wf_setTimeout_other r delay st :
  timers_wf st → timers_wf (snd (setTimeout (RejectOnTimeout r) delay st)).
Proof.
  intros (Hnd & Hlt & Hcb). unfold timers_wf. cbn. split; [|split].
  - rewrite fmap_app. apply NoDup_app. split; [done|]. split.
    + intros id Hid. cbn. intros Heq%list_elem_of_singleton.
      apply list_elem_of_fmap in Hid as (tm & Hidtm & Htm).
      specialize (Hlt tm Htm). lia.
    + cbn. apply NoDup_singleton.
  - intros tm [Htm|Htm]%elem_of_app;
      [|apply list_elem_of_singleton in Htm; subst tm]; cbn; [|lia].
    specialize (Hlt tm Htm). lia.
  - intros tm h [Htm|Htm]%elem_of_app;
      [eauto|apply list_elem_of_singleton in Htm; by subst tm].
Qed.

Lemma timers_wf_debounced h a st : timers_wf st → timers_wf (debounced h a st).
Proof.
  intros Hwf. destruct (closures st !! h) as [t|] eqn:Ht;
    [|unfold debounced; by rewrite Ht].
  pose proof (lookup_lt_Some _ _ _ Ht) as Hh.
  destruct Hwf as (Hnd & Hlt & Hcb).
  destruct (timeout t) as [id|] eqn:Hid.
  - rewrite (debounced_pending _ _ _ _ _ Ht Hid). unfold timers_wf. cbn.
    split; [done|]. split; [done|]. intros tm h' Htm Hc.
    destruct (Hcb tm h' Htm Hc) as (t' & Ht' & Hto).
    destruct (decide (h' = h)) as [->|Hne].
    + rewrite list_lookup_insert_eq by done. eexists. split; [done|]. cbn.
      congruence.
    + rewrite list_lookup_insert_ne by done. eauto.
  - rewrite (debounced_idle _ _ _ _ Ht Hid). unfold timers_wf. cbn.
    split; [|split].
    + rewrite fmap_app. apply NoDup_app. split; [done|]. split.
      * intros id' Hin. cbn. intros Heq%list_elem_of_singleton.
        apply list_elem_of_fmap in Hin as (tm & Hidtm & Htm).
        specialize (Hlt tm Htm). lia.
      * cbn. apply NoDup_singleton.
    + intros tm [Htm|Htm]%elem_of_app;
        [|apply list_elem_of_singleton in Htm; subst tm]; cbn; [|lia].
      specialize (Hlt tm Htm). lia.
    + intros tm h' [Htm|Htm]%elem_of_app Hc;
        [|apply list_elem_of_singleton in Htm; subst tm].
      * destruct (Hcb tm h' Htm Hc) as (t' & Ht' & Hto).
        destruct (decide (h' = h)) as [->|Hne]; [congruence|].
        rewrite list_lookup_insert_ne by done. eauto.
      * cbn in Hc. injection Hc as <-.
        rewrite list_lookup_insert_eq by done. eauto.
Qed.

Lemma timers_wf_complete r st : timers_wf st → timers_wf (complete r st).
Proof.
  intros Hwf. unfold complete. destruct (runs st !! r) as [rn|]; [|done].
  cbn zeta. case_match.
  - apply timers_wf_debounced. by eapply timers_wf_frame; [..|exact Hwf].
  - by eapply timers_wf_frame; [..|exact Hwf].
Qed.

Lemma timers_wf_rejected r e st : timers_wf st → timers_wf (rejected r e st).
Proof.
  intros Hwf. apply timers_wf_complete.
  destruct (caught_frame r e st) as (_ & _ & _ & Hc & Ht & _).
  eapply timers_wf_frame; [exact Ht| |exact Hc|exact Hwf].
  unfold caught. by case_match.
Qed.

Lemma timers_wf_onContent r c st : timers_wf st → timers_wf (onContent r c st).
Proof.
  intros Hwf. unfold onContent. destruct (runs st !! r) as [rn|]; [|done].
  cbn zeta. case_match; [|case_match].
  - apply timers_wf_rejected. by eapply timers_wf_frame; [..|exact Hwf].
  - set (st1 := emit _ _).
    assert (H1 : timers_wf st1) by by eapply timers_wf_frame; [..|exact Hwf].
    apply (timers_wf_setTimeout_other r 10000) in H1.
    by eapply timers_wf_frame; [..|exact H1].
  - apply timers_wf_rejected. by eapply timers_wf_frame; [..|exact Hwf].
Qed.

Lemma timers_wf_onPatched r resp st : timers_wf st → timers_wf (onPatched r resp st).
Proof.
  intros Hwf. unfold onPatched. destruct (runs st !! r) as [rn|]; [|done].
  cbn zeta. case_match; [|case_match; [destruct resp|]].
  - apply timers_wf_rejected. by eapply timers_wf_frame; [..|exact Hwf].
  - apply timers_wf_rejected. by eapply timers_wf_frame; [..|exact Hwf].
  - by eapply timers_wf_frame; [..|exact Hwf].
  - apply timers_wf_complete. by eapply timers_wf_frame; [..|exact Hwf].
Qed.

Lemma timers_wf_request tabId url f st :
  timers_wf st → timers_wf (requestUpdateTransaction tabId url f st).
Proof.
  intros Hwf. unfold requestUpdateTransaction. cbn zeta.
  set (st1 := if transactions st !! _ is None then _ else _).
  assert (H1 : timers_wf st1).
  { unfold st1. case_match; [done|]. destruct Hwf as (Hnd & Hlt & Hcb).
    unfold timers_wf, createTransaction. cbn. split; [done|]. split; [done|].
    intros tm h Htm Hc. destruct (Hcb tm h Htm Hc) as (t & Ht & Hto).
    exists t. split; [|done]. rewrite lookup_app_l; [done|].
    by eapply lookup_lt_Some. }
  case_match; [|done]. by apply timers_wf_debounced.
Qed.

(** Once its timer is out of the queue, [later] may arm a new one. *)
Lemma timers_wf_later h st :
  timers_wf st → (∀ tm, tm ∈ timers st → cb tm ≠ Later h) →
  timers_wf (later h st).
Proof.
  intros Hwf Hno. destruct (closures st !! h) as [t|] eqn:Ht;
    [|unfold later; by rewrite Ht].
  pose proof (lookup_lt_Some _ _ _ Ht) as Hh.
  destruct (decide (0 ≤ now st - timestamp t < updateDebounce)) as [Hq|Hq].
  - rewrite (later_waits h t st Ht Hq). destruct Hwf as (Hnd & Hlt & Hcb).
    unfold timers_wf. cbn. split; [|split].
    + rewrite fmap_app. apply NoDup_app. split; [done|]. split.
      * intros id' Hin. cbn. intros Heq%list_elem_of_singleton.
        apply list_elem_of_fmap in Hin as (tm & Hidtm & Htm).
        specialize (Hlt tm Htm). lia.
      * cbn. apply NoDup_singleton.
    + intros tm [Htm|Htm]%elem_of_app;
        [|apply list_elem_of_singleton in Htm; subst tm]; cbn; [|lia].
      specialize (Hlt tm Htm). lia.
    + intros tm h' [Htm|Htm]%elem_of_app Hc;
        [|apply list_elem_of_singleton in Htm; subst tm].
      * destruct (Hcb tm h' Htm Hc) as (t' & Ht' & Hto).
        destruct (decide (h' = h)) as [->|Hne]; [by destruct (Hno tm Htm)|].
        rewrite list_lookup_insert_ne by done. eauto.
      * cbn in Hc. injection Hc as <-.
        rewrite list_lookup_insert_eq by done. eauto.
  - rewrite (later_starts h t st Ht Hq). destruct Hwf as (Hnd & Hlt & Hcb).
    unfold timers_wf, pipeline. cbn. rewrite list_lookup_insert_eq by done. cbn.
    split; [done|]. split; [done|]. intros tm h' Htm Hc.
    destruct (Hcb tm h' Htm Hc) as (t' & Ht' & Hto).
    destruct (decide (h' = h)) as [->|Hne]; [by destruct (Hno tm Htm)|].
    rewrite !list_lookup_insert_ne by done. eauto.
Qed.

Lemma timers_wf_filter (P : timer → Prop) `{∀ tm, Decision (P tm)} st :
  timers_wf st → timers_wf (set_timers (filter P (timers st)) st).
Proof.
  intros (Hnd & Hlt & Hcb). unfold timers_wf. cbn. split; [|split].
  - eapply sublist_NoDup; [exact Hnd|]. apply fmap_sublist, sublist_filter.
  - intros tm [_ Htm]%list_elem_of_filter. auto.
  - intros tm h [_ Htm]%list_elem_of_filter. eauto.
Qed.

Lemma timers_wf_fire id st : timers_wf st → timers_wf (fire id st).
Proof.
  intros Hwf. unfold fire. destruct (due_timer id st) as [tm|] eqn:Hd; [|done].
  apply due_timer_Some in Hd as (Htm & Hid & _).
  pose proof (timers_wf_filter (λ tm, tid tm ≠ id) st Hwf) as Hwf1.
  destruct (cb tm) as [h|r] eqn:Hc; cbn [run_callback].
  - apply timers_wf_later; [done|]. cbn.
    intros tm' [Hne Htm']%list_elem_of_filter Hc'.
    destruct Hwf as (_ & _ & Hcb).
    destruct (Hcb tm h Htm Hc) as (t & Ht & Hto).
    destruct (Hcb tm' h Htm' Hc') as (t' & Ht' & Hto'). congruence.
  - case_match; [|done]. by apply timers_wf_rejected.
Qed.

Lemma timers_wf_step ev st : timers_wf st → timers_wf (step ev st).
Proof.
  intros Hwf. destruct ev as [t|id|tab url f|r s|r s|r s|s]; cbn [step].
  - by eapply timers_wf_frame; [..|exact Hwf].
  - by apply timers_wf_fire.
  - by apply timers_wf_request.
  - case_match; [|done].
    destruct s; [by apply timers_wf_onContent|by apply timers_wf_rejected].
  - case_match; [|done].
    destruct s; [by apply timers_wf_onPatched|by apply timers_wf_rejected].
  - case_match; [|done].
    destruct s; [by apply timers_wf_complete|by apply timers_wf_rejected].
  - by eapply timers_wf_frame; [..|exact Hwf].
Qed.

Lemma timers_wf_exec evs : ∀ st, timers_wf st → timers_wf (exec evs st).
Proof.
  induction evs as [|ev evs IH]; intros st Hwf; [done|].
  rewrite exec_cons. by apply IH, timers_wf_step.
Qed.

Lemma timers_wf_reachable st : reachable st → timers_wf st.
Proof.
  intros (t0 & s & evs & ->). apply timers_wf_exec.
  unfold timers_wf, initial. cbn. split; [constructor|].
  split; [intros tm Htm|intros tm h Htm]; by apply elem_of_nil in Htm.
Qed.

(** At most one [later] per closure is pending. *)
Lemma pending_later_unique h st :
  timers_wf st → (length (pending_later h st) ≤ 1)%nat.
Proof.
  intros (Hnd & _ & Hcb). unfold pending_later.
  assert (Hsub : NoDup (tid <$> filter (λ tm, cb tm = Later h) (timers st))).
  { eapply sublist_NoDup; [exact Hnd|]. apply fmap_sublist, sublist_filter. }
  destruct (filter _ _) as [|tm1 [|tm2 l]] eqn:E; cbn; [lia..|].
  assert (H1 : tm1 ∈ filter (λ tm, cb tm = Later h) (timers st))
    by (rewrite E; left).
  assert (H2 : tm2 ∈ filter (λ tm, cb tm = Later h) (timers st))
    by (rewrite E; right; left).
  apply list_elem_of_filter in H1 as [Hc1 Hin1].
  apply list_elem_of_filter in H2 as [Hc2 Hin2].
  destruct (Hcb tm1 h Hin1 Hc1) as (t1 & Ht1 & Hto1).
  destruct (Hcb tm2 h Hin2 Hc2) as (t2 & Ht2 & Hto2).
  assert (tid tm1 = tid tm2) by congruence.
  cbn in Hsub. apply NoDup_cons in Hsub as [Hnotin _].
  destruct Hnotin. rewrite H. left.
Qed.

(** ** The protocol of a run *)

Lemma moves_effect_run r p l p' :
  moves r p l p' → Forall (λ e, effect_run e = r) l.
Proof.
  destruct 1; repeat constructor.
  eapply Forall_impl; [eassumption|]. by intros e [_ ?].
Qed.

Lemma raises_moves st r rn ev e :
  runs st !! r = Some rn → raises st r rn ev e →
  ∃ l, log (step ev st) = log st ++ l ∧
       moves r (Some (r_phase rn)) l (phase_of r (step ev st)).
Proof.
  intros H Hr.
  assert (Hnf : r_phase rn ≠ Finished) by (destruct Hr; congruence).
  destruct (raises_outcome _ _ _ _ _ H Hr) as ((pre & El & Fpre) & -> & _).
  refine (ex_intro _ _ (conj El _)). apply moves_finish; [done|].
  apply Forall_app. split.
  { eapply Forall_impl; [exact Fpre|]. by intros x (_ & ? & ?). }
  apply Forall_app. split; [case_bool_decide; by repeat constructor|].
  destruct (truthy _); by repeat constructor.
Qed.

Lemma moves_complete r rn st :
  runs st !! r = Some rn → r_phase rn ≠ Finished →
  ∃ l, log (complete r st) = log st ++ l ∧
       moves r (Some (r_phase rn)) l (phase_of r (complete r st)).
Proof.
  intros H Hnf. rewrite (complete_phase r rn st H).
  eexists. split; [by apply complete_log|]. apply moves_finish; [done|].
  case_match; by repeat constructor.
Qed.

Lemma moves_later h st :
  ∃ l, log (later h st) = log st ++ l ∧
       moves (length (runs st)) None l (phase_of (length (runs st)) (later h st)).
Proof.
  assert (Hnone : phase_of (length (runs st)) st = None).
  { unfold phase_of. by rewrite lookup_ge_None_2. }
  destruct (closures st !! h) as [t|] eqn:Ht.
  2:{ unfold later. rewrite Ht. exists []. rewrite app_nil_r, Hnone.
      split; [done|constructor]. }
  pose proof (lookup_lt_Some _ _ _ Ht) as Hlt.
  destruct (decide (0 ≤ now st - timestamp t < updateDebounce)) as [Hq|Hq].
  - rewrite (later_waits h t st Ht Hq). exists []. rewrite app_nil_r.
    split; [done|]. unfold phase_of in *. cbn. rewrite Hnone. constructor.
  - unfold phase_of. rewrite (later_starts_run h t st Ht Hq).
    rewrite (later_starts h t st Ht Hq). unfold pipeline. cbn.
    rewrite list_lookup_insert_eq by done. cbn.
    rewrite lookup_app_r, Nat.sub_diag by done. cbn.
    eexists [_; _]. rewrite <- app_assoc. split; [reflexivity|constructor].
Qed.

(** Every turn of the event loop moves one run along the protocol and
    leaves the other runs as they are. *)
Lemma step_moves ev st :
  ∃ r l, log (step ev st) = log st ++ l ∧
         moves r (phase_of r st) l (phase_of r (step ev st)) ∧
         ∀ r', r' ≠ r → runs (step ev st) !! r' = runs st !! r'.
Proof.
  assert (Hquiet : ∀ st', log st' = log st → runs st' = runs st →
    ∃ r l, log st' = log st ++ l ∧
           moves r (phase_of r st) l (phase_of r st') ∧
           ∀ r', r' ≠ r → runs st' !! r' = runs st !! r').
  { intros st' El Er. exists 0%nat, []. rewrite app_nil_r. split; [done|].
    unfold phase_of. rewrite Er. split; [constructor|done]. }
  destruct ev as [t|id|tab url f|r s|r s|r s|s]; cbn [step].
  - by apply Hquiet.
  - unfold fire. destruct (due_timer id st) as [tm|] eqn:Hd; [|by apply Hquiet].
    set (st1 := set_timers _ st).
    destruct (cb tm) as [h|r] eqn:Hc; cbn [run_callback].
    + destruct (moves_later h st1) as (l & El & Hm).
      exists (length (runs st)), l. split; [exact El|]. split.
      { replace (phase_of (length (runs st)) st) with (@None phase); [exact Hm|].
        unfold phase_of. by rewrite lookup_ge_None_2. }
      apply (acts_on_later h st1).
    + destruct (in_phase r Applying st1) eqn:E; [|by apply Hquiet].
      apply in_phase_true, phase_of_Some in E as (rn & H & Hp).
      pose proof (due_timer_Some _ _ _ Hd) as (_ & Hid & _). subst id.
      assert (Hr : raises st r rn (Fire (tid tm)) (error "ETIMEOUT" "Timeout"))
        by by apply race_times_out.
      destruct (raises_moves st r rn _ _ H Hr) as (l & El & Hm).
      cbn [step] in El, Hm. unfold fire in El, Hm. rewrite Hd, Hc in El, Hm.
      cbn [run_callback] in El, Hm. fold st1 in El, Hm.
      rewrite (proj2 (in_phase_true r st1 Applying)) in El, Hm
        by (apply phase_of_Some; eauto).
      exists r, l. split; [exact El|]. split.
      * replace (phase_of r st) with (Some (r_phase rn)); [exact Hm|].
        symmetry. apply phase_of_Some. eauto.
      * apply (acts_on_rejected r _ st1).
  - apply Hquiet.
    + unfold requestUpdateTransaction, createTransaction. cbn zeta.
      repeat case_match; rewrite ?debounced_log; done.
    + unfold requestUpdateTransaction, createTransaction. cbn zeta.
      repeat case_match; rewrite ?debounced_runs; done.
  - destruct (in_phase r Reading st) eqn:E; [|by apply Hquiet].
    pose proof E as Hin. apply in_phase_true in E. pose proof E as Hph.
    apply phase_of_Some in E as (rn & H & Hp).
    exists r. rewrite Hph, <- Hp.
    destruct s as [c|e].
    + destruct (truthy (getResourcePatches (r_tabId rn) (r_resourceUrl rn) st)) eqn:Hg.
      * destruct (r_applyPatch rn) as [f|] eqn:Hf.
        -- rewrite (onContent_apply r rn f c st H Hf Hg). cbn zeta.
           eexists [_]. split; [reflexivity|]. split.
           ++ unfold phase_of. cbn. rewrite list_lookup_insert_eq
                by (rewrite length_insert; by eapply lookup_lt_Some).
              cbn. rewrite Hp. constructor.
           ++ rewrite <- (onContent_apply r rn f c st H Hf Hg).
              apply acts_on_onContent.
        -- destruct (raises_moves st r rn _ _ H
                       (not_callable st r rn c Hp Hg Hf)) as (l & El & Hm).
           cbn [step] in El, Hm. rewrite Hin in El, Hm.
           exists l. split; [done|]. split; [done|]. apply acts_on_onContent.
      * destruct (raises_moves st r rn _ _ H (no_patches st r rn c Hp Hg))
          as (l & El & Hm).
        cbn [step] in El, Hm. rewrite Hin in El, Hm.
        exists l. split; [done|]. split; [done|]. apply acts_on_onContent.
    + destruct (raises_moves st r rn _ _ H (read_fails st r rn e Hp))
        as (l & El & Hm).
      cbn [step] in El, Hm. rewrite Hin in El, Hm.
      exists l. split; [done|]. split; [done|]. apply acts_on_rejected.
  - destruct (in_phase r Applying st) eqn:E; [|by apply Hquiet].
    pose proof E as Hin. apply in_phase_true in E. pose proof E as Hph.
    apply phase_of_Some in E as (rn & H & Hp).
    exists r. rewrite Hph, <- Hp.
    destruct s as [resp|e].
    + destruct (truthy (getResourcePatches (r_tabId rn) (r_resourceUrl rn) st)) eqn:Hg.
      * destruct (decide (r_snapshot rn =
                   getResourcePatches (r_tabId rn) (r_resourceUrl rn) st)) as [Hs|Hs].
        -- destruct resp as [|content].
           ++ destruct (raises_moves st r rn _ _ H
                          (no_response st r rn Hp Hg Hs)) as (l & El & Hm).
              cbn [step] in El, Hm. rewrite Hin in El, Hm.
              exists l. split; [done|]. split; [done|]. apply acts_on_onPatched.
           ++ rewrite (onPatched_commit r rn content st H Hg Hs).
              eexists [_; _; _]. split; [cbn; by rewrite <- !app_assoc|]. split.
              ** unfold phase_of. cbn. rewrite list_lookup_insert_eq
                   by by eapply lookup_lt_Some.
                 cbn. rewrite Hp. constructor.
              ** rewrite <- (onPatched_commit r rn content st H Hg Hs).
                 apply acts_on_onPatched.
        -- assert (Ho := acts_on_onPatched r resp st).
           rewrite (onPatched_stale r rn resp st H Hs) in Ho |- *.
           cbn zeta in Ho |- *. rewrite Hg in Ho |- *. set (st1 := emit _ st) in *.
           assert (H1 : runs st1 !! r = Some rn) by done.
           rewrite (complete_phase r rn st1 H1).
           eexists. split.
           { rewrite (complete_log r rn st1 H1). cbn. by rewrite <- app_assoc. }
           split; [|apply Ho].
           apply moves_finish; [congruence|].
           constructor; [done|]. destruct (truthy _); by repeat constructor.
      * destruct (raises_moves st r rn _ _ H
                    (session_destroyed st r rn resp Hp Hg)) as (l & El & Hm).
        cbn [step] in El, Hm. rewrite Hin in El, Hm.
        exists l. split; [done|]. split; [done|]. apply acts_on_onPatched.
    + destruct (raises_moves st r rn _ _ H (apply_fails st r rn e Hp))
        as (l & El & Hm).
      cbn [step] in El, Hm. rewrite Hin in El, Hm.
      exists l. split; [done|]. split; [done|]. apply acts_on_rejected.
  - destruct (in_phase r Committing st) eqn:E; [|by apply Hquiet].
    apply in_phase_true in E. pose proof E as Hph.
    apply phase_of_Some in E as (rn & H & Hp).
    exists r. rewrite Hph, <- Hp. destruct s as [u|e].
    + destruct (moves_complete r rn st H) as (l & El & Hm); [congruence|].
      exists l. split; [done|]. split; [done|]. apply acts_on_complete.
    + destruct (raises_moves st r rn _ _ H (write_fails st r rn e Hp))
        as (l & El & Hm).
      cbn [step] in El, Hm.
      rewrite (proj2 (in_phase_true r st Committing)) in El, Hm by done.
      exists l. split; [done|]. split; [done|]. apply acts_on_rejected.
  - by apply Hquiet.
Qed.

Lemma phase_step ev st r p :
  phase_of r st = Some p →
  ∃ p', phase_of r (step ev st) = Some p' ∧
        (p' = p ∨ p' = Finished ∨ rank p' = S (rank p)).
Proof.
  intros Hp. destruct (step_moves ev st) as (r0 & l & _ & Hm & Ho).
  destruct (decide (r = r0)) as [->|Hne].
  - rewrite Hp in Hm. inversion Hm; subst; eauto.
  - exists p. split; [|by left]. unfold phase_of in *. by rewrite Ho.
Qed.

Lemma phase_exec evs : ∀ st r p,
  phase_of r st = Some p →
  ∃ p', phase_of r (exec evs st) = Some p' ∧ (rank p ≤ rank p')%nat.
Proof.
  induction evs as [|ev evs IH]; intros st r p Hp; [eauto|].
  rewrite exec_cons. destruct (phase_step ev st r p Hp) as (p1 & Hp1 & Hr).
  destruct (IH _ r p1 Hp1) as (p2 & Hp2 & Hr2). exists p2. split; [done|].
  destruct Hr as [->|[->|Hr]]; [done| |lia].
  destruct p; cbn in *; lia.
Qed.

Lemma writes_of_app r l1 l2 :
  writes_of r (l1 ++ l2) = writes_of r l1 ++ writes_of r l2.
Proof. apply filter_app. Qed.

Lemma writes_of_other r r0 l :
  Forall (λ e, effect_run e = r0) l → r ≠ r0 → writes_of r l = [].
Proof.
  intros Hl Hne. unfold writes_of. induction Hl as [|e l He _ IH]; [done|].
  rewrite filter_cons_False; [done|]. intros [_ ?]. congruence.
Qed.

Lemma writes_of_none r l :
  Forall (λ e, is_write e = false ∧ effect_run e = r) l → writes_of r l = [].
Proof.
  intros Hl. unfold writes_of. induction Hl as [|e l [He _] _ IH]; [done|].
  rewrite filter_cons_False; [done|]. intros [? _]. congruence.
Qed.

Lemma writes_guarded_quiet a b :
  writes_guarded a → Forall (λ e, is_write e = false) b →
  writes_guarded (a ++ b).
Proof.
  intros Ha Hb l1 l2 r tab url c E.
  apply app_eq_inv in E as [(k & -> & E)|(k & -> & E)].
  - destruct k as [|e k].
    + cbn in E. subst b. apply Forall_cons in Hb as [Hb _]. done.
    + injection E as <- ->. by eapply Ha.
  - subst b. apply Forall_app in Hb as [_ Hb].
    apply Forall_cons in Hb as [Hb _]. done.
Qed.

Lemma writes_guarded_commit a r tabId url content msg :
  writes_guarded a →
  writes_guarded (a ++ [ConsoleInfo r msg; DispatchReset r tabId url;
                        Update r tabId url content]).
Proof.
  intros Ha l1 l2 r' tab' url' c' E.
  apply app_eq_inv in E as [(k & -> & E)|(k & -> & E)].
  - destruct k as [|e k]; [done|]. injection E as <- _. by eapply Ha.
  - destruct k as [|e1 [|e2 [|e3 k]]]; simplify_eq/=.
    + exists (a ++ [ConsoleInfo r' msg]). by rewrite <- app_assoc.
    + by destruct k.
Qed.

Lemma log_inv_step ev st : log_inv st → log_inv (step ev st).
Proof.
  intros [Hg Hw]. destruct (step_moves ev st) as (r0 & l & El & Hm & Ho).
  pose proof (moves_effect_run _ _ _ _ Hm) as Hl. split.
  - rewrite El. inversion Hm; subst.
    + by rewrite app_nil_r.
    + apply writes_guarded_quiet; [done|]. by repeat constructor.
    + apply writes_guarded_quiet; [done|]. by repeat constructor.
    + by apply writes_guarded_commit.
    + apply writes_guarded_quiet; [done|].
      eapply Forall_impl; [eassumption|]. by intros e [? _].
  - intros r. destruct (Hw r) as [Hle Hz]. rewrite El, writes_of_app.
    destruct (decide (r = r0)) as [->|Hne].
    + inversion Hm as [p|tab url E1 E2|f c sn E1 E2|tab url c E1 E2|p l' Hp Hl' E1 E2];
        subst.
      * rewrite app_nil_r. done.
      * rewrite Hz by (left; done).
        rewrite writes_of_none by by repeat constructor. cbn. split; [lia|done].
      * rewrite Hz by (right; left; done).
        rewrite writes_of_none by by repeat constructor. cbn. split; [lia|done].
      * rewrite Hz by (right; right; done). rewrite app_nil_l. split.
        -- unfold writes_of. rewrite filter_cons_False by (intros [? _]; done).
           rewrite filter_cons_False by (intros [? _]; done).
           rewrite filter_cons_True by done. cbn. lia.
        -- intros [?|[?|?]]; congruence.
      * rewrite (writes_of_none r0 l) by done. rewrite app_nil_r.
        split; [done|]. intros [?|[?|?]]; congruence.
    + rewrite (writes_of_other r r0 l) by done. rewrite app_nil_r.
      split; [done|]. unfold phase_of in *. by rewrite Ho.
Qed.

Lemma log_inv_exec evs : ∀ st, log_inv st → log_inv (exec evs st).
Proof.
  induction evs as [|ev evs IH]; intros st Hst; [done|].
  rewrite exec_cons. by apply IH, log_inv_step.
Qed.

Lemma log_inv_reachable st : reachable st → log_inv st.
Proof.
  intros (t0 & s & evs & ->). apply log_inv_exec. split.
  - intros l1 l2 r tab url c E. by destruct l1.
  - intros r. split; [cbn; lia|done].
Qed.

(** ** Timers are only added *)

Lemma timers_debounced h a st : timers st `prefix_of` timers (debounced h a st).
Proof.
  unfold debounced, setTimeout. repeat case_match; try done.
  cbn. by apply prefix_app_r.
Qed.

Lemma timers_complete r st : timers st `prefix_of` timers (complete r st).
Proof.
  unfold complete. repeat case_match; try done.
  etrans; [|apply timers_debounced]. done.
Qed.

Lemma timers_rejected r e st : timers st `prefix_of` timers (rejected r e st).
Proof.
  unfold rejected. etrans; [|apply timers_complete].
  by rewrite (proj1 (proj2 (proj2 (proj2 (proj2 (caught_frame r e st)))))).
Qed.

Lemma timers_onContent r c st : timers st `prefix_of` timers (onContent r c st).
Proof.
  unfold onContent, rejectOnTimeout, setTimeout.
  repeat case_match; simplify_eq;
    first [done|by (etrans; [|apply timers_rejected])
          |by (cbn; apply prefix_app_r)].
Qed.

Lemma timers_onPatched r resp st : timers st `prefix_of` timers (onPatched r resp st).
Proof.
  unfold onPatched.
  repeat case_match;
    first [done|by (etrans; [|apply timers_rejected])
          |by (etrans; [|apply timers_complete])].
Qed.

Lemma timers_later h st : timers st `prefix_of` timers (later h st).
Proof.
  destruct (closures st !! h) as [t|] eqn:Ht; [|unfold later; by rewrite Ht].
  destruct (decide (0 ≤ now st - timestamp t < updateDebounce)) as [Hq|Hq].
  - rewrite (later_waits h t st Ht Hq). cbn. by apply prefix_app_r.
  - rewrite (later_starts h t st Ht Hq). unfold pipeline. cbn.
    by case_match.
Qed.

Lemma timers_request tabId url f st :
  timers st `prefix_of` timers (requestUpdateTransaction tabId url f st).
Proof.
  unfold requestUpdateTransaction, createTransaction. cbn zeta.
  repeat case_match; try done; (etrans; [|apply timers_debounced]); done.
Qed.

(** No turn of the event loop takes a timer out of the queue but the one
    that fires it. *)
Lemma timers_step ev st tm :
  tm ∈ timers st → ev ≠ Fire (tid tm) → tm ∈ timers (step ev st).
Proof.
  intros Htm Hev.
  assert (Hpre : ∀ st', timers st `prefix_of` timers st' → tm ∈ timers st').
  { intros st' [k ->]. apply elem_of_app. by left. }
  destruct ev as [t|id|tab url f|r s|r s|r s|s]; cbn [step]; try done.
  - unfold fire. destruct (due_timer id st) as [tm'|]; [|done].
    set (st1 := set_timers _ st).
    assert (H1 : tm ∈ timers st1).
    { unfold st1. cbn. apply list_elem_of_filter. split; [|done]. congruence. }
    assert (Hpre1 : ∀ st', timers st1 `prefix_of` timers st' → tm ∈ timers st').
    { intros st' [k ->]. apply elem_of_app. by left. }
    unfold run_callback. repeat case_match; try done.
    + apply Hpre1, timers_later.
    + apply Hpre1, timers_rejected.
  - apply Hpre, timers_request.
  - case_match; [|done].
    destruct s; [apply Hpre, timers_onContent|apply Hpre, timers_rejected].
  - case_match; [|done].
    destruct s; [apply Hpre, timers_onPatched|apply Hpre, timers_rejected].
  - case_match; [|done].
    destruct s; [apply Hpre, timers_complete|apply Hpre, timers_rejected].
Qed.

Lemma timers_exec evs : ∀ st tm,
  tm ∈ timers st → Forall (λ ev, ev ≠ Fire (tid tm)) evs →
  tm ∈ timers (exec evs st).
Proof.
  induction evs as [|ev evs IH]; intros st tm Htm Hevs; [done|].
  apply Forall_cons in Hevs as [Hev Hevs]. rewrite exec_cons.
  apply IH; [|done]. by apply timers_step.
Qed.

(** ** The registry *)

Lemma evolves_refl st : evolves st st.
Proof.
  split; [done|]. split; [done|]. split; [done|]. split.
  - intros h t t' Ht Ht'. simplify_eq. auto.
  - intros r rn' H. left. eauto.
Qed.

Lemma evolves_trans st1 st2 st3 :
  evolves st1 st2 → evolves st2 st3 → evolves st1 st3.
Proof.
  intros (N1 & T1 & L1 & C1 & R1) (N2 & T2 & L2 & C2 & R2).
  split; [lia|]. split; [auto|]. split; [congruence|]. split.
  - intros h t t'' Ht Ht''.
    destruct (closures st2 !! h) as [t'|] eqn:Ht'.
    2:{ apply lookup_ge_None in Ht'. apply lookup_lt_Some in Ht. lia. }
    destruct (C1 h t t' Ht Ht') as (? & ? & Hts1).
    destruct (C2 h t' t'' Ht' Ht'') as (? & ? & Hts2).
    split; [congruence|]. split; [congruence|].
    destruct Hts2 as [->|?]; [|by right]. destruct Hts1 as [->|?]; [by left|].
    right. lia.
  - intros r rn'' H''. destruct (R2 r rn'' H'') as [(rn' & H' & E1 & E2 & E3)|(t' & Ht' & E2 & E3)].
    + destruct (R1 r rn' H') as [(rn & H & F1 & F2 & F3)|(t & Ht & F2 & F3)].
      * left. exists rn. repeat split; congruence.
      * right. exists t. rewrite E1. repeat split; congruence.
    + right. destruct (closures st1 !! r_transaction rn'') as [t|] eqn:Ht.
      2:{ apply lookup_ge_None in Ht. apply lookup_lt_Some in Ht'. lia. }
      destruct (C1 _ t t' Ht Ht') as (? & ? & _).
      exists t. repeat split; congruence.
Qed.

Lemma registry_wf_evolves st st' : registry_wf st → evolves st st' → registry_wf st'.
Proof.
  intros (Hk & Hr & Hc) (N & T & L & C & R).
  assert (Hex : ∀ h t, closures st !! h = Some t →
            ∃ t', closures st' !! h = Some t' ∧ t_tabId t' = t_tabId t ∧
                  t_resourceUrl t' = t_resourceUrl t).
  { intros h t Ht. destruct (closures st' !! h) as [t'|] eqn:Ht'.
    - destruct (C h t t' Ht Ht') as (? & ? & _). eauto.
    - apply lookup_ge_None in Ht'. apply lookup_lt_Some in Ht. lia. }
  split; [|split].
  - intros k h Hkh. destruct (Hk k h (T k h Hkh)) as (t & Ht & Hkey).
    destruct (Hex h t Ht) as (t' & Ht' & E1 & E2). exists t'.
    split; [done|]. by rewrite E1, E2.
  - intros r rn' H'. destruct (R r rn' H') as [(rn & H & E1 & E2 & E3)|(t & Ht & E2 & E3)].
    + destruct (Hr r rn H) as (t & Ht & F2 & F3).
      destruct (Hex _ t Ht) as (t' & Ht' & G1 & G2). exists t'.
      rewrite E1. repeat split; congruence.
    + destruct (Hex _ t Ht) as (t' & Ht' & G1 & G2). exists t'.
      repeat split; congruence.
  - intros h t' Ht'. destruct (closures st !! h) as [t|] eqn:Ht.
    + destruct (C h t t' Ht Ht') as (_ & _ & [->|?]); [|done].
      specialize (Hc h t Ht). lia.
    + apply lookup_ge_None in Ht. apply lookup_lt_Some in Ht'. lia.
Qed.

(** What leaves the clock, the registry, the closures and the identity of
    the runs alone. *)
Lemma evolves_frame st st' :
  now st' = now st → transactions st' = transactions st →
  closures st' = closures st → runs st' = runs st → evolves st st'.
Proof. intros En Et Ec Er. unfold evolves. rewrite En, Et, Ec, Er. apply evolves_refl. Qed.

Lemma evolves_set_run r rn rn' st :
  runs st !! r = Some rn → r_transaction rn' = r_transaction rn →
  r_tabId rn' = r_tabId rn → r_resourceUrl rn' = r_resourceUrl rn →
  evolves st (set_run r rn' st).
Proof.
  intros H E1 E2 E3. split; [done|]. split; [done|]. split; [done|]. split.
  - intros h t t' Ht Ht'. cbn in Ht'. simplify_eq. auto.
  - intros r' rn'' H''. cbn in H''. left. destruct (decide (r' = r)) as [->|Hne].
    + rewrite list_lookup_insert_eq in H'' by by eapply lookup_lt_Some.
      simplify_eq. eauto.
    + rewrite list_lookup_insert_ne in H'' by done. eauto.
Qed.

Lemma evolves_set_closure h t t' st :
  closures st !! h = Some t →
  t_tabId t' = t_tabId t → t_resourceUrl t' = t_resourceUrl t →
  timestamp t' = timestamp t ∨ timestamp t' ≤ now st →
  evolves st (set_closure h t' st).
Proof.
  intros Ht E1 E2 E3. split; [done|]. split; [done|].
  split; [cbn; by rewrite length_insert|]. split.
  - intros h' u u' Hu Hu'. cbn in Hu'. destruct (decide (h' = h)) as [->|Hne].
    + rewrite list_lookup_insert_eq in Hu' by by eapply lookup_lt_Some.
      simplify_eq. auto.
    + rewrite list_lookup_insert_ne in Hu' by done. simplify_eq. auto.
  - intros r rn' H. left. eauto.
Qed.

Lemma evolves_debounced h a st : evolves st (debounced h a st).
Proof.
  destruct (closures st !! h) as [t|] eqn:Ht;
    [|unfold debounced; rewrite Ht; apply evolves_refl].
  destruct (timeout t) as [id|] eqn:Hid.
  - rewrite (debounced_pending _ _ _ _ _ Ht Hid).
    apply (evolves_set_closure h t); auto. right. cbn. lia.
  - rewrite (debounced_idle _ _ _ _ Ht Hid).
    eapply evolves_trans; [by apply (evolves_frame st (snd (setTimeout (Later h) updateDebounce st)))|].
    apply (evolves_set_closure h t); auto. right. cbn. lia.
Qed.

Lemma evolves_complete r st : evolves st (complete r st).
Proof.
  unfold complete. destruct (runs st !! r) as [rn|] eqn:H; [|apply evolves_refl].
  cbn zeta. eapply evolves_trans; [by apply (evolves_set_run r rn (finish rn))|].
  set (st1 := set_run _ _ _). case_match.
  - eapply evolves_trans; [|apply evolves_debounced]. by apply evolves_frame.
  - split; [done|]. split.
    { intros k h Hk. cbn in Hk. apply lookup_delete_Some in Hk as [_ Hk]. done. }
    split; [done|]. split.
    + intros h t t' Ht Ht'. change (closures st1 !! h = Some t') in Ht'.
      rewrite Ht in Ht'.
      injection Ht' as <-. auto.
    + intros r' rn' H'. left. exists rn'. auto.
Qed.

Lemma evolves_rejected r e st : evolves st (rejected r e st).
Proof.
  unfold rejected. eapply evolves_trans; [|apply evolves_complete].
  unfold caught. case_match; [by apply evolves_frame|apply evolves_refl].
Qed.

Lemma evolves_onContent r c st : evolves st (onContent r c st).
Proof.
  unfold onContent. destruct (runs st !! r) as [rn|] eqn:H; [|apply evolves_refl].
  cbn zeta.
  eapply evolves_trans;
    [by apply (evolves_set_run r rn
                 (with_snapshot (getResourcePatches (r_tabId rn) (r_resourceUrl rn) st) rn))|].
  set (st1 := set_run _ _ _).
  assert (H1 : runs st1 !! r = Some (with_snapshot
            (getResourcePatches (r_tabId rn) (r_resourceUrl rn) st) rn)).
  { unfold st1. cbn. rewrite list_lookup_insert_eq; [done|].
    by eapply lookup_lt_Some. }
  case_match; [|case_match].
  - eapply evolves_trans; [|apply evolves_rejected]. by apply evolves_frame.
  - unfold rejectOnTimeout, setTimeout. lazy beta iota zeta.
    match goal with |- evolves _ (set_run _ _ ?s) =>
      apply (evolves_trans _ s);
        [by apply evolves_frame|by apply (evolves_set_run r _ _ s H1)]
    end.
  - apply evolves_rejected.
Qed.

Lemma evolves_onPatched r resp st : evolves st (onPatched r resp st).
Proof.
  unfold onPatched. destruct (runs st !! r) as [rn|] eqn:H; [|apply evolves_refl].
  cbn zeta. case_match; [|case_match; [destruct resp|]].
  - eapply evolves_trans; [|apply evolves_rejected]. by apply evolves_frame.
  - eapply evolves_trans; [|apply evolves_rejected]. by apply evolves_frame.
  - match goal with |- evolves _ (set_run _ _ ?s) =>
      apply (evolves_trans _ s);
        [|by apply (evolves_set_run r rn _ s H)]
    end.
    split; [done|]. split; [done|]. split; [done|]. split.
    + intros h t t' Ht Ht'. cbn in Ht'. rewrite Ht in Ht'.
      injection Ht' as <-. auto.
    + intros r' rn' H'. left. exists rn'. auto.
  - eapply evolves_trans; [|apply evolves_complete]. by apply evolves_frame.
Qed.

Lemma evolves_later h st : evolves st (later h st).
Proof.
  destruct (closures st !! h) as [t|] eqn:Ht;
    [|unfold later; rewrite Ht; apply evolves_refl].
  pose proof (lookup_lt_Some _ _ _ Ht) as Hlt.
  destruct (decide (0 ≤ now st - timestamp t < updateDebounce)) as [Hq|Hq].
  - rewrite (later_waits h t st Ht Hq).
    eapply evolves_trans; [by apply (evolves_frame st (snd (setTimeout (Later h) (updateDebounce - (now st - timestamp t)) st)))|].
    apply (evolves_set_closure h t); auto.
  - rewrite (later_starts h t st Ht Hq).
    set (st1 := set_closure h (with_timeout None t) st).
    assert (E1 : evolves st st1) by (apply (evolves_set_closure h t); auto).
    assert (H1 : closures st1 !! h = Some (with_timeout None t)).
    { unfold st1. cbn. by rewrite list_lookup_insert_eq. }
    assert (E2 : evolves st1 (pipeline h (args t) st1)).
    { unfold pipeline. rewrite H1. split; [done|]. split; [done|].
      split; [done|]. split.
      - intros h' u u' Hu Hu'. cbn in Hu, Hu'. rewrite Hu in Hu'.
        injection Hu' as <-. auto.
      - intros r rn' H'. cbn in H'.
        apply lookup_app_Some in H' as [H'|[_ H']]; [left; exists rn'; auto|].
        right. apply list_lookup_singleton_Some in H' as [_ <-]. cbn.
        exists (with_timeout None t). auto. }
    eapply evolves_trans; [exact E1|]. eapply evolves_trans; [exact E2|].
    apply (evolves_set_closure h (with_timeout None t)); auto.
    unfold pipeline. by rewrite H1.
Qed.

Lemma registry_wf_request tabId url f st :
  registry_wf st → registry_wf (requestUpdateTransaction tabId url f st).
Proof.
  intros Hwf. unfold requestUpdateTransaction. cbn zeta.
  destruct (transactions st !! getKey tabId url) as [h|] eqn:Hk.
  - rewrite Hk. eapply registry_wf_evolves; [done|apply evolves_debounced].
  - unfold createTransaction. cbn [transactions set_transactions set_closures].
    rewrite lookup_insert_eq.
    set (t0 := {| t_tabId := tabId; t_resourceUrl := url; timeout := None;
                  args := None; timestamp := 0 |}).
    set (st1 := set_transactions _ _).
    assert (H1 : closures st1 !! length (closures st) = Some t0).
    { unfold st1. cbn. by rewrite lookup_app_r, Nat.sub_diag. }
    rewrite (debounced_idle _ _ st1 t0 H1 eq_refl).
    destruct Hwf as (Hkey & Hr & Hc). split; [|split].
    + intros k h Hkh. cbn in Hkh |- *.
      destruct (decide (k = getKey tabId url)) as [->|Hne].
      * rewrite lookup_insert_eq in Hkh. simplify_eq.
        rewrite list_lookup_insert_eq by (rewrite length_app; cbn; lia). eauto.
      * rewrite lookup_insert_ne in Hkh by done.
        destruct (Hkey k h Hkh) as (t & Ht & E). exists t. split; [|done].
        rewrite list_lookup_insert_ne
          by (apply lookup_lt_Some in Ht; lia).
        by rewrite lookup_app_l by by eapply lookup_lt_Some.
    + intros r rn H. cbn in H |- *. destruct (Hr r rn H) as (t & Ht & E1 & E2).
      exists t. split; [|done].
      rewrite list_lookup_insert_ne by (apply lookup_lt_Some in Ht; lia).
      by rewrite lookup_app_l by by eapply lookup_lt_Some.
    + intros h t Ht. cbn in Ht |- *.
      destruct (decide (h = length (closures st))) as [->|Hne].
      * rewrite list_lookup_insert_eq in Ht by (rewrite length_app; cbn; lia).
        simplify_eq. cbn. lia.
      * rewrite list_lookup_insert_ne in Ht by done.
        apply lookup_app_Some in Ht as [Ht|[Hge Ht]]; [eauto|].
        apply list_lookup_singleton_Some in Ht as [Hz _]. lia.
Qed.

Lemma registry_wf_step ev st : registry_wf st → registry_wf (step ev st).
Proof.
  intros Hwf. destruct ev as [t|id|tab url f|r s|r s|r s|s]; cbn [step].
  - eapply registry_wf_evolves; [done|]. split; [cbn; lia|].
    split; [done|]. split; [done|]. split.
    + intros h u u' Hu Hu'. cbn in Hu'. simplify_eq. auto.
    + intros r rn' H. left. eauto.
  - eapply registry_wf_evolves; [done|]. unfold fire.
    destruct (due_timer id st) as [tm|]; [|apply evolves_refl].
    set (st1 := set_timers _ st).
    apply (evolves_trans _ st1); [by apply evolves_frame|].
    unfold run_callback. repeat case_match;
      [apply evolves_later|apply evolves_rejected|apply evolves_refl].
  - by apply registry_wf_request.
  - eapply registry_wf_evolves; [done|]. case_match; [|apply evolves_refl].
    destruct s; [apply evolves_onContent|apply evolves_rejected].
  - eapply registry_wf_evolves; [done|]. case_match; [|apply evolves_refl].
    destruct s; [apply evolves_onPatched|apply evolves_rejected].
  - eapply registry_wf_evolves; [done|]. case_match; [|apply evolves_refl].
    destruct s; [apply evolves_complete|apply evolves_rejected].
  - eapply registry_wf_evolves; [done|]. by apply evolves_frame.
Qed.

Lemma registry_wf_reachable st : reachable st → registry_wf st.
Proof.
  intros (t0 & s & evs & ->).
  assert (H0 : registry_wf (initial t0 s)).
  { split; [|split]; [intros k h H|intros r rn H|intros h t H]; cbn in H;
      by rewrite ?lookup_empty in H. }
  revert H0. generalize (initial t0 s).
  induction evs as [|ev evs IH]; intros st Hst; [done|].
  rewrite exec_cons. by apply IH, registry_wf_step.
Qed.

(** ** Keys *)

Lemma plus_free_app s1 s2 : plus_free s1 → plus_free s2 → plus_free (s1 +:+ s2).
Proof.
  induction s1 as [|c s1 IH]; cbn; [done|]. intros [Hc H1] H2. split; auto.
Qed.

Lemma pretty_N_go_plus_free x s : plus_free s → plus_free (pretty_N_go x s).
Proof.
  revert s. induction (N.lt_wf_0 x) as [x _ IH]; intros s Hs.
  assert (x = 0 ∨ 0 < x)%N as [->|?] by lia.
  - by rewrite pretty_N_go_0.
  - rewrite pretty_N_go_step by done. apply IH; [by apply N.div_lt|].
    split; [|done]. unfold pretty_N_char. by repeat case_match.
Qed.

Lemma pretty_Z_plus_free (z : Z) : plus_free (pretty z).
Proof.
  assert (HN : ∀ n : N, plus_free (pretty n)).
  { intros n. unfold pretty, pretty_N. case_decide; [done|].
    by apply pretty_N_go_plus_free. }
  destruct z as [|p|p]; [done|apply HN|].
  change (plus_free ("-" +:+ pretty (N.pos p))). split; [done|apply HN].
Qed.

Lemma plus_separates s1 s2 r1 r2 :
  plus_free s1 → plus_free s2 →
  s1 +:+ "+" +:+ r1 = s2 +:+ "+" +:+ r2 → s1 = s2 ∧ r1 = r2.
Proof.
  revert s2. induction s1 as [|c s1 IH]; intros [|c' s2] H1 H2 E;
    cbn in *; simplify_eq/=.
  - done.
  - by destruct H2.
  - by destruct H1.
  - destruct H1 as [_ H1], H2 as [_ H2].
    destruct (IH s2 H1 H2) as [-> ->]; done.
Qed.

(** * lib/utils.js *)

(** ** [unique] *)

Lemma strict_eq_true a b : strict_eq a b = true ↔ a = b.
Proof. unfold strict_eq. apply bool_decide_eq_true. Qed.

Lemma indexOf_from_notin i arr v :
  v ∉ arr → Utils.indexOf_from i arr v = -1.
Proof.
  revert i. induction arr as [|x arr IH]; intros i Hv; [done|]. cbn.
  apply not_elem_of_cons in Hv as [Hne Hv].
  unfold strict_eq. rewrite bool_decide_eq_false_2 by done. by apply IH.
Qed.

Lemma indexOf_from_app i pre l v :
  v ∉ pre →
  Utils.indexOf_from i (pre ++ l) v = Utils.indexOf_from (i + Z.of_nat (length pre)) l v.
Proof.
  revert i. induction pre as [|x pre IH]; intros i Hv; cbn.
  - f_equal. lia.
  - apply not_elem_of_cons in Hv as [Hne Hv].
    unfold strict_eq. rewrite bool_decide_eq_false_2 by done.
    rewrite IH by done. f_equal. lia.
Qed.

Lemma indexOf_from_in i pre l v :
  v ∈ pre → i ≤ Utils.indexOf_from i (pre ++ l) v < i + Z.of_nat (length pre).
Proof.
  revert i. induction pre as [|x pre IH]; intros i Hv.
  - by apply elem_of_nil in Hv.
  - cbn [app Utils.indexOf_from length]. unfold strict_eq.
    case_bool_decide as Hx; [lia|].
    apply elem_of_cons in Hv as [->|Hv]; [done|].
    specialize (IH (i + 1) Hv). lia.
Qed.

Lemma filter_from_firsts pre l :
  Utils.filter_from (Z.of_nat (length pre))
    (λ val i, Utils._uniqueHandler val i (pre ++ l)) l
  = firsts pre l.
Proof.
  revert pre. induction l as [|x l IH]; intros pre; [done|].
  cbn [Utils.filter_from firsts].
  assert (E : pre ++ x :: l = (pre ++ [x]) ++ l) by by rewrite <- app_assoc.
  assert (Hlen : Z.of_nat (length pre) + 1 = Z.of_nat (length (pre ++ [x])))
    by (rewrite length_app; cbn; lia).
  specialize (IH (pre ++ [x])). rewrite <- E, <- Hlen in IH.
  unfold Utils._uniqueHandler at 1, Utils.indexOf.
  destruct (decide (x ∈ pre)) as [Hin|Hnin].
  - pose proof (indexOf_from_in 0 pre (x :: l) x Hin).
    rewrite (proj2 (Z.eqb_neq _ _)) by lia. exact IH.
  - rewrite indexOf_from_app by done. cbn.
    unfold strict_eq. rewrite bool_decide_eq_true_2 by done.
    rewrite Z.eqb_refl. by rewrite IH.
Qed.

Lemma unique_firsts arr : Utils.unique arr = firsts [] arr.
Proof. apply (filter_from_firsts [] arr). Qed.

Lemma firsts_elem_of seen l x : x ∈ firsts seen l ↔ x ∈ l ∧ x ∉ seen.
Proof.
  revert seen. induction l as [|y l IH]; intros seen; cbn.
  - split; [by intros ?%elem_of_nil|by intros [?%elem_of_nil _]].
  - case_decide as Hy.
    + rewrite IH, elem_of_cons, not_elem_of_app, list_elem_of_singleton.
      split; [tauto|]. intros [[->|?] ?]; [done|].
      split; [done|]. split; [done|]. by intros ->.
    + rewrite !elem_of_cons, IH, not_elem_of_app, list_elem_of_singleton.
      split; [|destruct (decide (x = y)); tauto].
      intros [->|(? & ? & ?)]; auto.
Qed.

Lemma firsts_NoDup seen l : NoDup (firsts seen l).
Proof.
  revert seen. induction l as [|y l IH]; intros seen; cbn; [constructor|].
  case_decide; [apply IH|]. constructor; [|apply IH].
  rewrite firsts_elem_of, not_elem_of_app, list_elem_of_singleton.
  by intros (_ & _ & ?).
Qed.

Lemma firsts_sublist seen l : firsts seen l `sublist_of` l.
Proof.
  revert seen. induction l as [|y l IH]; intros seen; cbn; [done|].
  case_decide; [by apply sublist_cons|by apply sublist_skip].
Qed.

Lemma firsts_id seen l :
  NoDup l → (∀ x, x ∈ l → x ∉ seen) → firsts seen l = l.
Proof.
  revert seen. induction l as [|y l IH]; intros seen Hnd Hd; [done|]. cbn.
  apply NoDup_cons in Hnd as [Hy Hnd].
  rewrite decide_False by (apply Hd; left). f_equal. apply IH; [done|].
  intros x Hx. rewrite not_elem_of_app, list_elem_of_singleton. split.
  - apply Hd. by right.
  - by intros ->.
Qed.

Lemma firsts_snoc seen l x :
  firsts seen (l ++ [x]) =
    firsts seen l ++ (if decide (x ∈ seen ++ l) then [] else [x]).
Proof.
  revert seen. induction l as [|y l IH]; intros seen; cbn.
  - rewrite app_nil_r. by case_decide.
  - rewrite IH. rewrite <- (assoc_L (++) seen [y] l). cbn.
    by case_decide.
Qed.

(** ** [keyForValue] *)

Lemma prop_lookup (obj : list (string * value)) k x :
  NoDup (obj.*1) → (k, x) ∈ obj → Utils.prop obj k = x.
Proof.
  unfold Utils.prop. induction obj as [|[k' x'] obj IH]; intros Hnd Hin.
  - by apply elem_of_nil in Hin.
  - cbn in Hnd. apply NoDup_cons in Hnd as [Hk' Hnd].
    apply elem_of_cons in Hin as [[= -> ->]|Hin].
    + by rewrite filter_cons_True.
    + rewrite filter_cons_False; [by apply IH|]. cbn. intros ->.
      apply Hk'. apply list_elem_of_fmap. by exists (k, x).
Qed.

(** The fold of [keyForValue] over the keys of a part of the object. *)
Lemma keyForValue_fold (obj : list (string * value)) v (l : list (string * value)) : ∀ out,
  (∀ k x, (k, x) ∈ l → Utils.prop obj k = x) →
  foldl (λ out key, if strict_eq (Utils.prop obj key) v then Some key else out)
    out (l.*1)
  = match list_find (λ p, p.2 = v) (reverse l) with
    | Some (_, p) => Some p.1
    | None => out
    end.
Proof.
  induction l as [|[k x] l IH] using rev_ind; intros out Hl; [done|].
  rewrite fmap_app, foldl_app, reverse_app. cbn.
  rewrite (Hl k x) by (apply elem_of_app; right; by left).
  unfold strict_eq. case_bool_decide as Hx.
  - by rewrite decide_True.
  - rewrite decide_False by done. rewrite IH.
    + by destruct (list_find _ (reverse l)) as [[i p]|].
    + intros k' x' Hin. apply Hl. apply elem_of_app. by left.
Qed.

(** ** [normalizeUrl] *)

Lemma normalizeUrl_prefix url : Utils.normalizeUrl url `prefix_of` url.
Proof.
  induction url as [|c rest IH]; cbn; [done|].
  case_match; [apply prefix_nil|by apply prefix_cons].
Qed.

Lemma dot_star_end_prefix s1 s2 :
  Utils.dot_star_end (s1 ++ s2) = true → Utils.dot_star_end s1 = true.
Proof.
  unfold Utils.dot_star_end. rewrite forallb_app. by intros [? _]%andb_true_iff.
Qed.

Lemma normalizeUrl_plain url :
  Utils.dot_star_end url = true →
  (35%N ∉ Utils.normalizeUrl url) ∧
  ∃ frag, url = Utils.normalizeUrl url ++ frag ∧
          (frag = [] ∨ ∃ f, frag = 35%N :: f).
Proof.
  induction url as [|c rest IH]; intros Hd; cbn.
  { split; [by intros ?%elem_of_nil|]. exists []. auto. }
  assert (Hd' : Utils.dot_star_end rest = true).
  { unfold Utils.dot_star_end in *. cbn in Hd.
    by apply andb_true_iff in Hd as [_ ?]. }
  rewrite Hd', andb_true_r.
  destruct (IH Hd') as (Hno & frag & E & Hfrag).
  destruct (N.eqb_spec c 35) as [->|Hne].
  - split; [by intros ?%elem_of_nil|]. exists (35%N :: rest). eauto.
  - split.
    + intros [?|?]%elem_of_cons; done.
    + exists frag. split; [cbn; by rewrite <- E|done].
Qed.

Lemma normalizeUrl_no_hash url : 35%N ∉ url → Utils.normalizeUrl url = url.
Proof.
  induction url as [|c rest IH]; intros Hn; [done|]. cbn.
  apply not_elem_of_cons in Hn as [Hc Hn].
  rewrite (proj2 (N.eqb_neq c 35)) by done. cbn. by rewrite IH.
Qed.

Lemma dot_star_end_cons c s :
  Utils.dot_star_end (c :: s) =
    negb (Utils.is_line_terminator c) && Utils.dot_star_end s.
Proof. reflexivity. Qed.

(** What [normalizeUrl] cuts off ran to the end without a line terminator. *)
Lemma dot_star_end_normalizeUrl s :
  Utils.dot_star_end (Utils.normalizeUrl s) = true →
  Utils.dot_star_end s = true.
Proof.
  induction s as [|c s IH]; [done|]. cbn [Utils.normalizeUrl].
  destruct ((c =? 35)%N && Utils.dot_star_end s) eqn:E.
  - intros _. apply andb_true_iff in E as [Hc Hs].
    rewrite dot_star_end_cons, Hs, andb_true_r.
    apply N.eqb_eq in Hc as ->. done.
  - rewrite !dot_star_end_cons. intros [Hc Hs]%andb_true_iff.
    rewrite Hc. cbn. by apply IH.
Qed.

Lemma normalizeUrl_idem url :
  Utils.normalizeUrl (Utils.normalizeUrl url) = Utils.normalizeUrl url.
Proof.
  induction url as [|c rest IH]; [done|]. cbn [Utils.normalizeUrl].
  destruct ((c =? 35)%N && Utils.dot_star_end rest) eqn:E; [done|].
  cbn [Utils.normalizeUrl]. rewrite IH.
  destruct ((c =? 35)%N && Utils.dot_star_end (Utils.normalizeUrl rest)) eqn:E';
    [|done].
  apply andb_true_iff in E' as [Hc Hd]. rewrite Hc in E. cbn in E.
  by rewrite (dot_star_end_normalizeUrl rest Hd) in E.
Qed.

Lemma normalizeUrl_terminated pre c post :
  Utils.is_line_terminator c = true → 35%N ∉ post →
  Utils.normalizeUrl (pre ++ c :: post) = pre ++ c :: post.
Proof.
  intros Hc Hpost.
  assert (Hnd : ∀ s, Utils.dot_star_end (s ++ c :: post) = false).
  { intros s. unfold Utils.dot_star_end. rewrite forallb_app. cbn.
    rewrite Hc. cbn. apply andb_false_r. }
  induction pre as [|x pre IH]; cbn [app Utils.normalizeUrl].
  - rewrite (proj2 (N.eqb_neq c 35)) by (intros ->; done). cbn.
    by rewrite normalizeUrl_no_hash.
  - rewrite Hnd, andb_false_r. by rewrite IH.
Qed.

Lemma keyForValue_find (obj : list (string * value)) v :
  NoDup (obj.*1) →
  Utils.keyForValue obj v =
    match list_find (λ p, p.2 = v) (reverse obj) with
    | Some (_, p) => Some p.1
    | None => None
    end.
Proof.
  intros Hnd. apply keyForValue_fold. intros k x Hin. by apply prop_lookup.
Qed.

(** ** [debounce] and [throttle] *)

Lemma spaced_snoc wait prev l t :
  Timing.spaced wait prev (l ++ [t]) ↔
  Timing.spaced wait prev l ∧ default prev (last l) + wait ≤ t.
Proof.
  revert prev. induction l as [|x l IH]; intros prev; cbn.
  - tauto.
  - rewrite IH. rewrite last_cons. destruct (last l); cbn; tauto.
Qed.

Lemma gaps_snoc wait l t :
  Timing.gaps wait (l ++ [t]) ↔
  Timing.gaps wait l ∧ ∀ t', last l = Some t' → t' + wait ≤ t.
Proof.
  destruct l as [|x l]; cbn.
  - split; [split; [done|intros; discriminate]|done].
  - rewrite spaced_snoc, last_cons. destruct (last l); cbn; split; intros [? ?]; split; try done; intros; simplify_eq; auto.
Qed.

Lemma times_invoke c :
  Timing.times (Timing.invoke c) = Timing.times c ++ [Timing.c_now c].
Proof. unfold Timing.times. cbn. by rewrite fmap_app. Qed.

Lemma last_elem_of {A} (l : list A) x : last l = Some x → x ∈ l.
Proof.
  rewrite last_Some. intros [l' ->]. set_solver.
Qed.

Lemma timers_one_id (c : Timing.closure) id :
  (∀ tm, tm ∈ Timing.c_timers c → Timing.c_timeout c = Some tm.1) →
  Timing.c_timeout c = Some id →
  filter (λ tm : nat * Z, tm.1 ≠ id) (Timing.c_timers c) = [].
Proof.
  intros H Hid. apply filter_nil_iff || idtac.
  induction (Timing.c_timers c) as [|tm l IH]; [done|].
  rewrite filter_cons_False.
  - apply IH. intros tm' Hin. apply H. set_solver.
  - intros Hne. specialize (H tm ltac:(set_solver)). congruence.
Qed.

Lemma timers_none (c : Timing.closure) :
  (∀ tm, tm ∈ Timing.c_timers c → Timing.c_timeout c = Some tm.1) →
  Timing.c_timeout c = None → Timing.c_timers c = [].
Proof.
  intros H Hn. destruct (Timing.c_timers c) as [|tm l]; [done|].
  specialize (H tm ltac:(set_solver)). congruence.
Qed.

Lemma fired_timer (c : Timing.closure) id tm l :
  filter (λ tm : nat * Z, tm.1 = id) (Timing.c_timers c) = tm :: l →
  tm ∈ Timing.c_timers c ∧ tm.1 = id.
Proof.
  intros H. assert (Hin : tm ∈ filter (λ tm : nat * Z, tm.1 = id) (Timing.c_timers c))
    by (rewrite H; set_solver).
  by apply list_elem_of_filter in Hin as [? ?].
Qed.

Lemma clearTimeout_timers (c : Timing.closure) :
  (∀ tm, tm ∈ Timing.c_timers c → Timing.c_timeout c = Some tm.1) →
  Timing.c_timers (Timing.clearTimeout c) = [].
Proof.
  intros H. unfold Timing.clearTimeout.
  destruct (Timing.c_timeout c) as [i|] eqn:E.
  - cbn [Timing.c_timers Timing.set_timers].
    apply timers_one_id; [by rewrite E|done].
  - apply timers_none; [by rewrite E|done].
Qed.

Lemma clearTimeout_frame (c : Timing.closure) :
  Timing.c_now (Timing.clearTimeout c) = Timing.c_now c ∧
  Timing.c_calls (Timing.clearTimeout c) = Timing.c_calls c ∧
  Timing.c_timeout (Timing.clearTimeout c) = Timing.c_timeout c ∧
  Timing.c_args (Timing.clearTimeout c) = Timing.c_args c.
Proof.
  unfold Timing.clearTimeout.
  by destruct (Timing.c_timeout c) eqn:E; cbn; rewrite ?E.
Qed.

Lemma throttle_inv_step wait ev c :
  Timing.throttle_inv wait c →
  Timing.throttle_inv wait (Timing.step (Timing.Throttle wait) ev c).
Proof.
  intros [Hs [Hp Ht]]. destruct ev as [a|t|id]; cbn [Timing.step].
  - unfold Timing.throttle_call. cbn.
    destruct (Z.leb_spec (wait - (Timing.c_now c - Timing.c_stamp c)) 0) as [Hr|Hr].
    + pose proof (clearTimeout_timers (Timing.set_args (Some a) c)
        (λ tm H, proj1 (Ht tm H))) as Hnil.
      pose proof (clearTimeout_frame (Timing.set_args (Some a) c))
        as (Hn & Hc & _).
      cbn in Hn, Hc.
      unfold Timing.throttle_inv. rewrite times_invoke. cbn.
      unfold Timing.times in *. cbn. rewrite Hc, Hn, Hnil.
      split_and!.
      * apply spaced_snoc. split; [done|]. rewrite <- Hp. lia.
      * by rewrite last_snoc.
      * set_solver.
    + destruct (Timing.c_timeout c) as [i|] eqn:E; cbn; rewrite ?E.
      * split_and!; try done. intros tm Hin. cbn. rewrite E. by apply Ht.
      * assert (Hnil : Timing.c_timers c = []).
        { destruct (Timing.c_timers c) as [|tm l]; [done|].
          by destruct (Ht tm ltac:(left)). }
        unfold Timing.throttle_inv, Timing.times. cbn. rewrite Hnil.
        split_and!; try done. intros tm ->%list_elem_of_singleton. cbn.
        split; [done|lia].
  - done.
  - destruct (filter _ _) as [|tm l] eqn:Ef; [done|].
    apply fired_timer in Ef as [Hin <-].
    destruct (Z.leb_spec tm.2 (Timing.c_now c)) as [Hd|Hd]; [|done].
    destruct (Ht tm Hin) as [Hto Hdue].
    unfold Timing.throttle_later, Timing.throttle_inv. rewrite times_invoke.
    unfold Timing.times in *. cbn. rewrite (timers_one_id c _ (λ tm H, proj1 (Ht tm H)) Hto).
    split_and!.
    + apply spaced_snoc. split; [done|]. rewrite <- Hp. lia.
    + by rewrite last_snoc.
    + set_solver.
Qed.

Lemma exec_snoc w evs ev c :
  Timing.exec w (evs ++ [ev]) c = Timing.step w ev (Timing.exec w evs c).
Proof. unfold Timing.exec. by rewrite foldl_app. Qed.

Lemma exec_app w evs evs' c :
  Timing.exec w (evs ++ evs') c = Timing.exec w evs' (Timing.exec w evs c).
Proof. unfold Timing.exec. by rewrite foldl_app. Qed.

Lemma throttle_inv_exec wait evs c :
  Timing.throttle_inv wait c →
  Timing.throttle_inv wait (Timing.exec (Timing.Throttle wait) evs c).
Proof.
  revert c. induction evs as [|ev evs IH]; intros c H; [done|].
  apply IH. by apply throttle_inv_step.
Qed.

Lemma throttle_inv_init wait t0 : Timing.throttle_inv wait (Timing.init t0).
Proof. split_and!; try done. set_solver. Qed.

Lemma debounce_inv_step wait immediate ev c :
  Timing.debounce_inv wait immediate c →
  Timing.debounce_inv wait immediate
    (Timing.step (Timing.Debounce wait immediate) ev c).
Proof.
  intros (Hg & Ht & Hn & Hs & Hi). destruct ev as [a|t|id]; cbn [Timing.step].
  - unfold Timing.debounce_call. cbn.
    pose proof (timers_none c Ht) as Hnone.
    destruct (Timing.c_timeout c) as [i|] eqn:E; cbn.
    + destruct (Hs ltac:(done)) as [Hle Hts].
      rewrite andb_false_r. unfold Timing.debounce_inv. cbn. rewrite E.
      split_and!; done.
    + assert (Hnil := Hnone eq_refl).
      destruct immediate; cbn.
      * unfold Timing.debounce_inv, Timing.times in *. cbn.
        rewrite fmap_app, Hnil. cbn.
        split_and!; try done.
        -- apply gaps_snoc. split; [done|]. intros t' Hl%last_elem_of.
           by apply Hi.
        -- by intros tm ->%list_elem_of_singleton.
        -- intros t [Hin| ->%list_elem_of_singleton]%elem_of_app; [auto|lia].
        -- intros _. split; [lia|].
           intros t [Hin| ->%list_elem_of_singleton]%elem_of_app; [auto|lia].
      * unfold Timing.debounce_inv, Timing.times in *. cbn. rewrite Hnil.
        split_and!; try done.
        by intros tm ->%list_elem_of_singleton.
  - unfold Timing.debounce_inv, Timing.times in *. cbn.
    split_and!; try done.
    + intros t' Hin. specialize (Hn t' Hin). lia.
    + intros Hsome. destruct (Hs Hsome). split; [lia|done].
    + intros Him Hto t' Hin. specialize (Hi Him Hto t' Hin). lia.
  - destruct (filter _ _) as [|tm l] eqn:Ef; [done|].
    apply fired_timer in Ef as [Hin <-].
    destruct (Z.leb_spec tm.2 (Timing.c_now c)) as [Hd|Hd]; [|done].
    pose proof (Ht tm Hin) as Hto.
    destruct (Hs ltac:(by rewrite Hto)) as [Hle Hts].
    unfold Timing.debounce_later. cbn.
    rewrite (timers_one_id c _ Ht Hto).
    destruct (Z.ltb_spec (Timing.c_now c - Timing.c_stamp c) wait) as [Hl|Hl];
      destruct (Z.leb_spec 0 (Timing.c_now c - Timing.c_stamp c)) as [Hz|Hz];
      try lia; cbn.
    + unfold Timing.debounce_inv, Timing.times in *. cbn.
      split_and!; try done. by intros tm' ->%list_elem_of_singleton.
    + destruct immediate; cbn.
      * unfold Timing.debounce_inv, Timing.times in *. cbn.
        split_and!; try done.
        -- set_solver.
        -- intros _ _ t' Hin'. specialize (Hts t' Hin'). lia.
      * unfold Timing.debounce_inv, Timing.times in *. cbn.
        rewrite fmap_app. cbn.
        split_and!; try done.
        -- apply gaps_snoc. split; [done|]. intros t' Hl'%last_elem_of.
           specialize (Hts t' Hl'). lia.
        -- set_solver.
        -- intros t [Hin'| ->%list_elem_of_singleton]%elem_of_app; [auto|lia].
Qed.

Lemma debounce_inv_exec wait immediate evs c :
  Timing.debounce_inv wait immediate c →
  Timing.debounce_inv wait immediate
    (Timing.exec (Timing.Debounce wait immediate) evs c).
Proof.
  revert c. induction evs as [|ev evs IH]; intros c H; [done|].
  apply IH. by apply debounce_inv_step.
Qed.

Lemma debounce_inv_init wait immediate t0 :
  Timing.debounce_inv wait immediate (Timing.init t0).
Proof.
  unfold Timing.debounce_inv, Timing.times. cbn.
  split_and!; try done; set_solver.
Qed.

(** A pending timer is the one in [timeout], whatever the wrapper. *)
Lemma timers_tracked w evs t0 tm :
  tm ∈ Timing.c_timers (Timing.exec w evs (Timing.init t0)) →
  Timing.c_timeout (Timing.exec w evs (Timing.init t0)) = Some tm.1.
Proof.
  destruct w as [wait immediate|wait].
  - pose proof (debounce_inv_exec wait immediate evs _
      (debounce_inv_init wait immediate t0)) as (_ & Ht & _). apply Ht.
  - pose proof (throttle_inv_exec wait evs _ (throttle_inv_init wait t0))
      as (_ & _ & Ht). intros Hin. by destruct (Ht tm Hin).
Qed.

Lemma latest_snoc evs ev :
  Timing.latest (evs ++ [ev]) =
  if ev is Timing.Call a then Some a else Timing.latest evs.
Proof. unfold Timing.latest. by rewrite foldl_app. Qed.

(** A turn calls [func] at most once, with [args], which a pending [later]
    finds set to the arguments of the latest call. *)
Lemma step_calls w evs ev c :
  (∀ tm, tm ∈ Timing.c_timers c → Timing.c_timeout c = Some tm.1) →
  Timing.args_inv w evs c →
  Timing.args_inv w (evs ++ [ev]) (Timing.step w ev c) ∧
  (Timing.c_calls (Timing.step w ev c) = Timing.c_calls c ∨
   ∃ a, Timing.latest (evs ++ [ev]) = Some a ∧
        Timing.c_calls (Timing.step w ev c) =
        Timing.c_calls c ++ [(Timing.c_now c, Some a)]).
Proof.
  intros Ht Ha. unfold Timing.args_inv in *. rewrite latest_snoc.
  destruct ev as [a|t|id]; cbn [Timing.step].
  - destruct w as [wait immediate|wait].
    + unfold Timing.debounce_call. cbn.
      destruct (Timing.c_timeout c) as [i|] eqn:E; cbn.
      * rewrite andb_false_r. cbn. split; [|by left]. by intros _ _.
      * destruct immediate; cbn.
        -- split; [|right; by exists a]. intros _ Hw. by destruct (Hw wait).
        -- split; [|by left]. by intros _ _.
    + unfold Timing.throttle_call. cbn.
      destruct (Z.leb_spec (wait - (Timing.c_now c - Timing.c_stamp c)) 0).
      * pose proof (clearTimeout_frame (Timing.set_args (Some a) c))
          as (Hn & Hc & _ & Hargs).
        cbn in Hn, Hc, Hargs. cbn. rewrite Hn, Hc, Hargs.
        split; [by intros _ _|]. right. by exists a.
      * destruct (Timing.c_timeout c); cbn; (split; [by intros _ _|by left]).
  - split; [|by left]. exact Ha.
  - destruct (filter _ _) as [|tm l] eqn:Ef; [by split; [|left]|].
    apply fired_timer in Ef as [Hin <-].
    destruct (Z.leb_spec tm.2 (Timing.c_now c)) as [Hd|Hd];
      [|by split; [|left]].
    assert (Hne : Timing.c_timers c ≠ []) by (intros E; rewrite E in Hin; set_solver).
    rewrite (timers_one_id c _ Ht (Ht tm Hin)).
    destruct w as [wait immediate|wait].
    + unfold Timing.debounce_later. cbn.
      destruct (_ && _); cbn.
      * split; [|by left]. intros _ Hw. by apply Ha.
      * destruct immediate; cbn.
        -- split; [|by left]. by intros [].
        -- split; [by intros []|]. right.
           destruct Ha as [Hl [a Hs]]; [done..|]. exists a. split; [done|].
           by rewrite Hl, Hs.
    + unfold Timing.throttle_later. cbn. split; [by intros []|]. right.
      destruct Ha as [Hl [a Hs]]; [done..|]. exists a. split; [done|].
      by rewrite Hl, Hs.
Qed.

Lemma args_inv_reachable w evs t0 :
  Timing.args_inv w evs (Timing.exec w evs (Timing.init t0)).
Proof.
  induction evs as [|ev evs IH] using rev_ind.
  - by intros [].
  - rewrite exec_snoc. apply step_calls; [|done].
    intros tm. apply timers_tracked.
Qed.

Lemma timing_exec_cons w ev evs c :
  Timing.exec w (ev :: evs) c = Timing.exec w evs (Timing.step w ev c).
Proof. done. Qed.

(** With no timer pending and no call of the returned function nothing
    calls [func]. *)
Lemma idle_quiet w evs c :
  Timing.c_timers c = [] →
  Forall (λ ev, Timing.is_call ev = false) evs →
  Timing.c_calls (Timing.exec w evs c) = Timing.c_calls c.
Proof.
  revert c. induction evs as [|ev evs IH]; intros c Hnil Hq; [done|].
  apply Forall_cons in Hq as [Hev Hq]. rewrite timing_exec_cons.
  destruct ev as [a|t|id]; [done|..].
  - by rewrite IH.
  - cbn [Timing.step]. rewrite Hnil. cbn. by apply IH.
Qed.

(** While [timeout] holds the id of a cleared timer and the clock is less
    than [wait] after [previous], [throttle] drops every call. *)
Lemma stale_window wait evs c :
  Timing.c_timers c = [] → is_Some (Timing.c_timeout c) →
  Timing.c_now c < Timing.c_stamp c + wait →
  Forall (Timing.before (Timing.c_stamp c + wait)) evs →
  Timing.c_calls (Timing.exec (Timing.Throttle wait) evs c) = Timing.c_calls c ∧
  Timing.c_timers (Timing.exec (Timing.Throttle wait) evs c) = [].
Proof.
  revert c. induction evs as [|ev evs IH]; intros c Hnil Hto Hnow Hb; [done|].
  apply Forall_cons in Hb as [Hev Hb]. rewrite timing_exec_cons.
  destruct ev as [a|t|id].
  - cbn [Timing.step]. unfold Timing.throttle_call. cbn.
    destruct (Z.leb_spec (wait - (Timing.c_now c - Timing.c_stamp c)) 0);
      [lia|].
    destruct Hto as [i Hi]. rewrite Hi.
    apply (IH (Timing.set_args (Some a) c)); cbn; try done; by rewrite Hi.
  - cbn in Hev.
    apply (IH (Timing.step (Timing.Throttle wait) (Timing.Tick t) c));
      cbn; try done. lia.
  - cbn [Timing.step]. rewrite Hnil. cbn. by apply IH.
Qed.

(** After a call of the function [debounce] returns on the trailing edge, and
    until the next one: [func] has not been called since and the timer finds
    the call's time and arguments, or [func] has been called once since, not
    before [wait] after the call, and no timer is left. *)
Lemma trailing_after_call wait t0 evs1 a evs2 :
  Forall (λ ev, Timing.is_call ev = false) evs2 →
  let c1 := Timing.exec (Timing.Debounce wait false) evs1 (Timing.init t0) in
  let c := Timing.exec (Timing.Debounce wait false)
             (evs1 ++ Timing.Call a :: evs2) (Timing.init t0) in
  (Timing.c_calls c = Timing.c_calls c1 ∧ Timing.c_args c = Some a ∧
   Timing.c_stamp c = Timing.c_now c1 ∧ Timing.c_stamp c ≤ Timing.c_now c) ∨
  (Timing.c_timers c = [] ∧
   ∃ t, Timing.c_now c1 + wait ≤ t ∧
        Timing.c_calls c = Timing.c_calls c1 ++ [(t, Some a)]).
Proof.
  intros Hq c1. induction evs2 as [|ev evs2 IH] using rev_ind; intros c.
  - left. subst c. rewrite exec_app, timing_exec_cons. cbn [Timing.exec foldl].
    fold c1. cbn [Timing.step]. unfold Timing.debounce_call. cbn.
    destruct (Timing.c_timeout c1); cbn; split_and!; try done; lia.
  - apply Forall_app in Hq as [Hq Hev]. apply Forall_inv in Hev. cbn beta in Hev.
    specialize (IH Hq). cbn zeta in IH.
    pose proof (timers_tracked (Timing.Debounce wait false)
      (evs1 ++ Timing.Call a :: evs2) t0) as Ht.
    subst c. rewrite app_comm_cons, app_assoc, exec_snoc.
    set (c := Timing.exec _ (evs1 ++ Timing.Call a :: evs2) _) in *.
    destruct ev as [b|t|id]; [discriminate Hev|..].
    + destruct IH as [(Hc & Ha & Hs & Hle)|(Hnil & t' & Hle & Hc)].
      * left. cbn. split_and!; try done. lia.
      * right. cbn. split; [done|]. by exists t'.
    + destruct IH as [(Hc & Ha & Hs & Hle)|(Hnil & t' & Hle & Hc)].
      * cbn [Timing.step].
        destruct (filter _ _) as [|tm l] eqn:Ef; [by left|].
        apply fired_timer in Ef as [Hin <-].
        destruct (Z.leb_spec tm.2 (Timing.c_now c)) as [Hd|Hd]; [|by left].
        unfold Timing.debounce_later. cbn.
        rewrite (timers_one_id c _ Ht (Ht tm Hin)).
        destruct (Z.ltb_spec (Timing.c_now c - Timing.c_stamp c) wait) as [Hl|Hl];
          destruct (Z.leb_spec 0 (Timing.c_now c - Timing.c_stamp c)) as [Hz|Hz];
          try lia; cbn.
        -- by left.
        -- right. split; [done|]. exists (Timing.c_now c).
           split; [lia|]. by rewrite Hc, Ha.
      * right. cbn [Timing.step]. rewrite Hnil. cbn. split; [done|].
        by exists t'.
Qed.


(** * The claims *)

(** C1 (amended).  A call of the exported function starts no run itself.
    When the closure of the key has its timer pending the call only
    overwrites [args] and [timestamp]; no closure ever has two timers
    pending.  When no timer is pending, which is so from the start of a run
    until the next call, the call arms a timer for [updateDebounce], and
    [later], once the quiet period has passed, starts a run without looking
    at the runs in flight. *)
Theorem request_rearms_or_arms st tabId url f :
  let key := getKey tabId url in
  let st' := requestUpdateTransaction tabId url f st in
  (runs st' = runs st ∧ log st' = log st) ∧
  (∀ h t id, transactions st !! key = Some h → closures st !! h = Some t →
     timeout t = Some id →
     timers st' = timers st ∧ transactions st' = transactions st ∧
     closures st' =
       <[h := {| t_tabId := t_tabId t; t_resourceUrl := t_resourceUrl t;
                 timeout := Some id; args := Some f; timestamp := now st |}]>
         (closures st)) ∧
  (∀ h t, transactions st !! key = Some h → closures st !! h = Some t →
     timeout t = None →
     timers st' =
       timers st ++ [{| tid := next_timer st; due := now st + updateDebounce;
                        cb := Later h |}]) ∧
  (reachable st → ∀ h, (length (pending_later h st) ≤ 1)%nat ∧
                       (length (pending_later h st') ≤ 1)%nat) ∧
  (∀ h t st2, closures st2 !! h = Some t →
     ¬ (0 ≤ now st2 - timestamp t < updateDebounce) →
     length (runs (later h st2)) = S (length (runs st2))).
Proof.
  cbn zeta. split; [|split; [|split; [|split]]].
  - unfold requestUpdateTransaction, createTransaction. cbn zeta.
    repeat case_match; rewrite ?debounced_runs, ?debounced_log; done.
  - intros h t id Hk Ht Hid. unfold requestUpdateTransaction. cbn zeta.
    rewrite Hk. rewrite Hk. by rewrite (debounced_pending h _ st t id).
  - intros h t Hk Ht Hid. unfold requestUpdateTransaction. cbn zeta.
    rewrite Hk. rewrite Hk. by rewrite (debounced_idle h _ st t).
  - intros Hre%timers_wf_reachable h. split; apply pending_later_unique; [done|].
    by apply (timers_wf_step (Request tabId url f)).
  - intros h t st2 Ht Hq. rewrite (later_starts_run h t st2 Ht Hq).
    rewrite length_app. cbn. lia.
Qed.

(** C1 as stated fails: a request made while the run of its key is applying
    the patch has, 1000 later, started a second run beside the first. *)
Lemma second_run_overlaps :
  reachable demo_applying ∧
  in_flight 0 demo_applying ∧ transactions demo_applying !! "1+a.css" = Some 0%nat ∧
  demo_overlap =
    exec [Advance 1500; Request 1 "a.css" 11%nat; Advance 2500; Fire 3%nat]
      demo_applying ∧
  phase_of 0 demo_overlap = Some Applying ∧
  phase_of 1 demo_overlap = Some Reading ∧
  ¬ one_in_flight_per_key demo_overlap.
Proof.
  split; [|split; [|split; [|split; [|split; [|split]]]]].
  - exists 0, demo_sessions,
      [Request 1 "a.css" 10%nat; Advance 1000; Fire 1%nat;
       ContentSettled 0 (Fulfilled "body{}")]. vm_compute. reflexivity.
  - exists Applying. split; [vm_compute; reflexivity|done].
  - vm_compute. reflexivity.
  - vm_compute. reflexivity.
  - vm_compute. reflexivity.
  - vm_compute. reflexivity.
  - intros Hone.
    assert (H : 0%nat = 1%nat); [|done].
    apply (Hone 0%nat 1%nat (demo_run Applying (VObj 7))
             {| r_transaction := 0; r_tabId := 1; r_resourceUrl := "a.css";
                r_applyPatch := Some 11%nat; r_snapshot := VUndefined;
                r_phase := Reading |});
      try (vm_compute; reflexivity); done.
Qed.

(** C2 (amended).  When the last [then] finds patches it calls the debounced
    function again with the [applyPatch] of the run that finished.  That call
    starts no run: it stamps the closure with the current time and leaves a
    timer pending, and [later] starts the next run only once the quiet
    period has passed since that stamp. *)
Theorem restart_goes_through_debounce st r rn t :
  runs st !! r = Some rn → closures st !! r_transaction rn = Some t →
  truthy (getResourcePatches (r_tabId rn) (r_resourceUrl rn) st) = true →
  let st' := complete r st in
  let h := r_transaction rn in
  (∃ t', closures st' !! h = Some t' ∧ args t' = r_applyPatch rn ∧
         timestamp t' = now st ∧ is_Some (timeout t')) ∧
  transactions st' = transactions st ∧
  runs st' = <[r := finish rn]> (runs st) ∧
  log st' = log st ++ [ConsoleGroupEnd r;
                       ConsoleInfo r "Pending patches, restart transaction for"] ∧
  timers st' =
    (if timeout t is None then
       timers st ++ [{| tid := next_timer st; due := now st + updateDebounce;
                        cb := Later h |}]
     else timers st) ∧
  (∀ st2 t2, closures st2 !! h = Some t2 → timestamp t2 = now st →
     (now st ≤ now st2 < now st + updateDebounce →
        runs (later h st2) = runs st2) ∧
     (now st + updateDebounce ≤ now st2 →
        runs (later h st2) =
          runs st2 ++ [{| r_transaction := h; r_tabId := t_tabId t2;
                          r_resourceUrl := t_resourceUrl t2;
                          r_applyPatch := args t2;
                          r_snapshot := VUndefined; r_phase := Reading |}])).
Proof.
  intros H Ht Hp. cbn zeta.
  split; [by eapply complete_restart|].
  split; [by rewrite (complete_transactions r rn), Hp|].
  split; [by apply complete_runs|].
  split; [by rewrite (complete_log r rn), Hp|].
  split; [by apply complete_timers|].
  intros st2 t2 Ht2 Hts. split; intros Hq.
  - rewrite (later_waits _ t2) by (done || lia). done.
  - apply later_starts_run; [done|lia].
Qed.

(** The write of the demo session succeeds after new patches arrived. *)
Lemma restart_goes_through_debounce_witness :
  let st' := complete 0 demo_patched_again in
  runs demo_patched_again !! 0%nat = Some (demo_run Committing (VObj 7)) ∧
  truthy (getResourcePatches 1 "a.css" demo_patched_again) = true ∧
  timers st' = [{| tid := 2; due := 11000; cb := RejectOnTimeout 0 |};
                {| tid := 3; due := 2000; cb := Later 0 |}] ∧
  runs st' = [finish (demo_run Committing (VObj 7))].
Proof.
  cbn zeta.
  assert (H : runs demo_patched_again !! 0%nat
              = Some (demo_run Committing (VObj 7))) by (vm_compute; reflexivity).
  assert (Ht : closures demo_patched_again !! 0%nat
               = Some {| t_tabId := 1; t_resourceUrl := "a.css"; timeout := None;
                         args := None; timestamp := 0 |})
    by (vm_compute; reflexivity).
  assert (Hg : truthy (getResourcePatches 1 "a.css" demo_patched_again) = true)
    by (vm_compute; reflexivity).
  destruct (restart_goes_through_debounce _ 0%nat _ _ H Ht Hg)
    as (_ & _ & Hr & _ & Htm & _).
  exact (conj H (conj Hg (conj Htm Hr))).
Defined.

(** C2 as stated fails: after the restart no run is in flight, and the
    event loop starts the next one a whole quiet period later. *)
Lemma restart_waits_for_quiet_period :
  step (UpdateSettled 0 (Fulfilled ())) demo_patched_again
    = complete 0 demo_patched_again ∧
  truthy (getResourcePatches 1 "a.css" demo_patched_again) = true ∧
  length (runs (run_until 2 1999 (complete 0 demo_patched_again))) = 1%nat ∧
  phase_of 1 (run_until 2 2000 (complete 0 demo_patched_again)) = Some Reading ∧
  ¬ restarts_without_delay 0 demo_patched_again.
Proof.
  split; [vm_compute; reflexivity|]. split; [vm_compute; reflexivity|].
  split; [vm_compute; reflexivity|]. split; [vm_compute; reflexivity|].
  intros (r' & Hle & p & Hp & Hnf).
  assert (Hruns : runs (complete 0 demo_patched_again)
                  = [finish (demo_run Committing (VObj 7))])
    by (vm_compute; reflexivity).
  unfold phase_of in Hp. rewrite Hruns in Hp.
  destruct r' as [|r']; cbn in Hp; simplify_eq.
Qed.



(** C4.  When the snapshot taken after [applyPatch] is not the one taken
    before it, the run calls neither [dispatch] nor [devtools.update] and
    logs no error; the last [then] calls the debounced function again if
    it finds patches, and only then. *)
Theorem stale_snapshot_skips_write st r rn resp :
  runs st !! r = Some rn → r_phase rn = Applying →
  r_snapshot rn ≠ getResourcePatches (r_tabId rn) (r_resourceUrl rn) st →
  let st' := step (PatchSettled r (Fulfilled resp)) st in
  let pending := truthy (getResourcePatches (r_tabId rn) (r_resourceUrl rn) st') in
  (∃ l, log st' = log st ++ l ∧
        Forall (λ x, is_write x = false ∧ is_dispatch x = false ∧
                     is_error x = false) l) ∧
  sessions st' = sessions st ∧
  phase_of r st' = Some Finished ∧
  (∀ evs, ∃ l, log (exec evs st') = log st' ++ l ∧
               Forall (λ x, effect_run x ≠ r) l) ∧
  (pending = true →
     transactions st' = transactions st ∧
     ∀ t, closures st !! r_transaction rn = Some t →
       ∃ t', closures st' !! r_transaction rn = Some t' ∧
             args t' = r_applyPatch rn ∧ timestamp t' = now st ∧
             is_Some (timeout t')) ∧
  (pending = false →
     transactions st' !! key_of rn = None ∧
     closures st' = closures st ∧ timers st' = timers st).
Proof.
  intros H Hp Hs. cbn [step].
  rewrite (proj2 (in_phase_true _ _ _))
    by (apply phase_of_Some; eexists; split; [eassumption|done]).
  rewrite (onPatched_stale r rn resp st H Hs). cbn zeta.
  set (st1 := emit (ConsoleInfo r "Resource patched, try to update content") st).
  assert (H1 : runs st1 !! r = Some rn) by done.
  destruct (truthy (getResourcePatches (r_tabId rn) (r_resourceUrl rn) st)) eqn:Hg.
  - assert (Hg1 : truthy (getResourcePatches (r_tabId rn) (r_resourceUrl rn) st1) = true)
      by by rewrite (getResourcePatches_sessions _ _ st).
    assert (Hph := complete_phase r rn st1 H1).
    rewrite (getResourcePatches_sessions _ _ st) by (by rewrite complete_sessions).
    rewrite Hg. split; [|split; [|split; [|split; [|split]]]]; try done.
    + eexists. rewrite (complete_log r rn st1 H1), Hg1. cbn.
      rewrite <- app_assoc. split; [reflexivity|]. by repeat constructor.
    + by rewrite complete_sessions.
    + intros evs. by apply finished_exec.
    + intros _. split.
      * by rewrite (complete_transactions r rn st1 H1), Hg1.
      * intros t Ht. exact (complete_restart r rn t st1 H1 Ht Hg1).
  - set (st2 := emit _ st1).
    assert (H2 : runs st2 !! r = Some rn) by done.
    assert (Hg2 : truthy (getResourcePatches (r_tabId rn) (r_resourceUrl rn) st2) = false)
      by by rewrite (getResourcePatches_sessions _ _ st).
    destruct (rejected_state r rn cancel st2 H2) as (Hruns & Hss & Hn & Htr).
    rewrite Hg2 in Htr.
    assert (Hph : phase_of r (rejected r cancel st2) = Some Finished).
    { unfold phase_of. rewrite Hruns, list_lookup_insert_eq; [done|].
      by eapply lookup_lt_Some. }
    rewrite (getResourcePatches_sessions _ _ st) by done.
    rewrite Hg. split; [|split; [|split; [|split; [|split]]]]; try done.
    + eexists. rewrite (rejected_log r rn cancel st2 H2), Hg2. cbn.
      rewrite <- !app_assoc. split; [reflexivity|]. by repeat constructor.
    + intros evs. by apply finished_exec.
    + intros _. split; [rewrite Htr; apply lookup_delete_eq|].
      apply (rejected_done r rn cancel st2 H2 Hg2).
Qed.

(** New patches arrive while the patch is applied. *)
Lemma stale_snapshot_skips_write_witness :
  let st := step (StoreChanged demo_newer_sessions) demo_applying in
  let st' := step (PatchSettled 0 (Fulfilled (RObject "body{color:red}"))) st in
  runs st !! 0%nat = Some (demo_run Applying (VObj 7)) ∧
  VObj 7 ≠ getResourcePatches 1 "a.css" st ∧
  sessions st' = sessions st ∧
  phase_of 0 st' = Some Finished ∧
  transactions st' = transactions st.
Proof.
  cbn zeta.
  assert (H : runs (step (StoreChanged demo_newer_sessions) demo_applying) !! 0%nat
              = Some (demo_run Applying (VObj 7))) by (vm_compute; reflexivity).
  assert (Hs : r_snapshot (demo_run Applying (VObj 7)) ≠
               getResourcePatches 1 "a.css"
                 (step (StoreChanged demo_newer_sessions) demo_applying))
    by (vm_compute; discriminate).
  destruct (stale_snapshot_skips_write _ 0%nat _ (RObject "body{color:red}")
              H eq_refl Hs) as (_ & Hss & Hp & _ & Hre & _).
  refine (conj H (conj Hs (conj Hss (conj Hp (proj1 (Hre _)))))).
  vm_compute. reflexivity.
Defined.



(** C6.  When [getResourcePatches] gives [null] right after the content was
    read, the run is cancelled: it logs no error, never calls
    [devtools.update], and the last [then], which finds no patches either,
    deletes the key from [transactions]. *)
Theorem no_patch_short_circuit st r rn content :
  runs st !! r = Some rn → r_phase rn = Reading →
  getResourcePatches (r_tabId rn) (r_resourceUrl rn) st = VNull →
  let st' := step (ContentSettled r (Fulfilled content)) st in
  log st' =
    log st ++ [ConsoleInfo r "No patches for resource, abort"; ConsoleGroupEnd r] ∧
  phase_of r st' = Some Finished ∧
  transactions st' !! key_of rn = None ∧
  transactions st' = delete (key_of rn) (transactions st) ∧
  sessions st' = sessions st ∧
  ∀ evs, ∃ l, log (exec evs st') = log st' ++ l ∧
              Forall (λ x, effect_run x ≠ r) l.
Proof.
  intros H Hp Hs. cbn [step].
  assert (Hlt : (r < length (runs st))%nat) by by eapply lookup_lt_Some.
  rewrite (proj2 (in_phase_true _ _ _))
    by (apply phase_of_Some; eexists; split; [eassumption|done]).
  unfold onContent. rewrite H, Hs. cbn [truthy negb].
  set (st0 := emit _ (set_run _ _ _)).
  assert (H0 : runs st0 !! r = Some (with_snapshot VNull rn)).
  { unfold st0. cbn. by rewrite list_lookup_insert_eq. }
  assert (Hg : getResourcePatches (r_tabId rn) (r_resourceUrl rn) st0 = VNull).
  { by rewrite (getResourcePatches_sessions _ _ st). }
  destruct (rejected_state r _ cancel st0 H0) as (Hruns & Hss & Hn & Htr).
  cbn [with_snapshot r_tabId r_resourceUrl] in Htr. rewrite Hg in Htr.
  assert (Hph : phase_of r (rejected r cancel st0) = Some Finished).
  { unfold phase_of. rewrite Hruns, list_lookup_insert_eq; [done|].
    unfold st0. cbn. by rewrite length_insert. }
  split; [|split; [done|split; [|split; [|split]]]].
  - rewrite (rejected_log r _ _ _ H0).
    cbn [with_snapshot r_tabId r_resourceUrl]. rewrite Hg. cbn.
    by rewrite <- app_assoc.
  - rewrite Htr. apply lookup_delete_eq.
  - exact Htr.
  - by rewrite Hss.
  - intros evs. by apply finished_exec.
Qed.

(** The session is destroyed while the content is read. *)
Lemma no_patch_short_circuit_witness :
  let st := step (StoreChanged demo_no_session) demo_reading in
  let st' := step (ContentSettled 0 (Fulfilled "body{}")) st in
  runs st !! 0%nat = Some (demo_run Reading VUndefined) ∧
  getResourcePatches 1 "a.css" st = VNull ∧
  log st' = log st ++ [ConsoleInfo 0 "No patches for resource, abort";
                       ConsoleGroupEnd 0] ∧
  transactions st' !! "1+a.css" = None.
Proof.
  cbn zeta.
  assert (H : runs (step (StoreChanged demo_no_session) demo_reading) !! 0%nat
              = Some (demo_run Reading VUndefined)) by (vm_compute; reflexivity).
  assert (Hs : getResourcePatches 1 "a.css"
                 (step (StoreChanged demo_no_session) demo_reading) = VNull)
    by (vm_compute; reflexivity).
  destruct (no_patch_short_circuit _ 0%nat _ "body{}" H eq_refl Hs)
    as (Hl & _ & Ht & _).
  exact (conj H (conj Hs (conj Hl Ht))).
Defined.






(** C10.  A commit dispatches the reset before it calls [devtools.update],
    and nothing undoes the reset: when the update then rejects, the sessions
    are those the reset left, and the backlog stays empty until another
    user of the store fills it. *)
Theorem reset_precedes_write_and_stays st r rn content e :
  runs st !! r = Some rn → r_phase rn = Applying →
  truthy (getResourcePatches (r_tabId rn) (r_resourceUrl rn) st) = true →
  r_snapshot rn = getResourcePatches (r_tabId rn) (r_resourceUrl rn) st →
  let st1 := step (PatchSettled r (Fulfilled (RObject content))) st in
  let st2 := step (UpdateSettled r (Rejected e)) st1 in
  log st1 =
    log st ++ [ConsoleInfo r "Resource patched, try to update content";
               DispatchReset r (r_tabId rn) (r_resourceUrl rn);
               Update r (r_tabId rn) (r_resourceUrl rn) content] ∧
  phase_of r st1 = Some Committing ∧
  sessions st1 = reset_resource_patches (r_tabId rn) (r_resourceUrl rn) (sessions st) ∧
  getResourcePatches (r_tabId rn) (r_resourceUrl rn) st1 = VNull ∧
  sessions st2 = sessions st1 ∧
  log st2 =
    log st1 ++
      (if bool_decide (code e = Some "ECANCEL") then [] else [ConsoleError r e]) ++
      [ConsoleGroupEnd r] ∧
  (∀ evs, Forall internal evs →
     getResourcePatches (r_tabId rn) (r_resourceUrl rn) (exec evs st1) = VNull).
Proof.
  intros H Hp Hg Hs. cbn [step].
  assert (Hlt : (r < length (runs st))%nat) by by eapply lookup_lt_Some.
  rewrite (proj2 (in_phase_true r st Applying))
    by (apply phase_of_Some; eexists; split; [eassumption|done]).
  rewrite (onPatched_commit r rn content st H Hg Hs).
  set (st1 := set_run r _ _).
  assert (H1 : runs st1 !! r = Some (with_phase Committing rn)).
  { unfold st1. cbn. by rewrite list_lookup_insert_eq. }
  assert (Hp1 : phase_of r st1 = Some Committing).
  { apply phase_of_Some. eauto. }
  assert (Hnull : getResourcePatches (r_tabId rn) (r_resourceUrl rn) st1 = VNull).
  { by apply (getResourcePatches_reset _ _ (sessions st)). }
  rewrite (proj2 (in_phase_true r st1 Committing)) by done.
  split; [|split; [done|split; [done|split; [done|split; [|split]]]]].
  - unfold st1. cbn. by rewrite <- !app_assoc.
  - by rewrite rejected_sessions.
  - rewrite (rejected_log r _ e st1 H1).
    cbn [with_phase r_tabId r_resourceUrl]. by rewrite Hnull.
  - intros evs Hevs. by apply cleared_exec.
Qed.

(** The commit of the demo session, whose write fails with "disk full". *)
Lemma reset_precedes_write_and_stays_witness :
  let st1 := step (PatchSettled 0 (Fulfilled (RObject "body{color:red}")))
               demo_applying in
  let st2 := step (UpdateSettled 0 (Rejected disk_full)) st1 in
  runs demo_applying !! 0%nat = Some (demo_run Applying (VObj 7)) ∧
  truthy (getResourcePatches 1 "a.css" demo_applying) = true ∧
  VObj 7 = getResourcePatches 1 "a.css" demo_applying ∧
  log st1 = log demo_applying ++
    [ConsoleInfo 0 "Resource patched, try to update content";
     DispatchReset 0 1 "a.css"; Update 0 1 "a.css" "body{color:red}"] ∧
  getResourcePatches 1 "a.css" st2 = VNull.
Proof.
  cbn zeta.
  assert (H : runs demo_applying !! 0%nat = Some (demo_run Applying (VObj 7)))
    by (vm_compute; reflexivity).
  assert (Hg : truthy (getResourcePatches 1 "a.css" demo_applying) = true)
    by (vm_compute; reflexivity).
  assert (Hs : r_snapshot (demo_run Applying (VObj 7)) =
               getResourcePatches 1 "a.css" demo_applying)
    by (vm_compute; reflexivity).
  destruct (reset_precedes_write_and_stays _ 0%nat _ "body{color:red}" disk_full
              H eq_refl Hg Hs) as (Hl & _ & _ & _ & _ & _ & Hstay).
  refine (conj H (conj Hg (conj Hs (conj Hl
    (Hstay [UpdateSettled 0 (Rejected disk_full)] _))))).
  repeat constructor. intros s. discriminate.
Defined.

(** * Further properties of the module *)

(** X1.  A run whose last [then] has run stays finished and makes no call
    any more, whatever timers fire and promises settle afterwards. *)
Theorem finished_run_makes_no_call st r evs :
  phase_of r st = Some Finished →
  phase_of r (exec evs st) = Some Finished ∧
  ∃ l, log (exec evs st) = log st ++ l ∧ Forall (λ e, effect_run e ≠ r) l.
Proof. intros H. by apply finished_exec. Qed.

Lemma finished_run_makes_no_call_witness :
  let evs := [PatchSettled 0 (Fulfilled (RObject "late"));
              UpdateSettled 0 (Fulfilled ()); Advance 11000; Fire 2] in
  phase_of 0 demo_failed = Some Finished ∧
  phase_of 0 (exec evs demo_failed) = Some Finished.
Proof.
  cbn zeta.
  assert (H : phase_of 0 demo_failed = Some Finished) by (vm_compute; reflexivity).
  exact (conj H (proj1 (finished_run_makes_no_call demo_failed 0%nat _ H))).
Defined.

(** X2.  One turn of the event loop concerns one run.  It leaves the run
    alone, or starts it ([console.groupCollapsed], [devtools.getContent]),
    or takes it from reading to applying with one call of [applyPatch], or
    from applying to committing with the reset and the update, or finishes
    it without a call of [devtools.update]; the other runs are untouched. *)
Theorem turn_follows_protocol ev st :
  ∃ r l, log (step ev st) = log st ++ l ∧
         moves r (phase_of r st) l (phase_of r (step ev st)) ∧
         ∀ r', r' ≠ r → runs (step ev st) !! r' = runs st !! r'.
Proof. apply step_moves. Qed.

(** X3.  A run never goes back: a turn leaves it where it is, takes it to
    the next phase or finishes it, and after any number of turns it is at
    least as far as before. *)
Theorem runs_only_advance st r p ev evs :
  phase_of r st = Some p →
  (∃ p', phase_of r (step ev st) = Some p' ∧
         (p' = p ∨ p' = Finished ∨ rank p' = S (rank p))) ∧
  (∃ p', phase_of r (exec evs st) = Some p' ∧ (rank p ≤ rank p')%nat).
Proof. intros H. split; [by apply phase_step|by apply phase_exec]. Qed.

Lemma runs_only_advance_witness :
  phase_of 0 demo_applying = Some Applying ∧
  ∃ p', phase_of 0 (exec [PatchSettled 0 (Fulfilled (RObject "x"));
                          ContentSettled 0 (Fulfilled "again")] demo_applying)
          = Some p' ∧ (rank Applying ≤ rank p')%nat.
Proof.
  assert (H : phase_of 0 demo_applying = Some Applying) by (vm_compute; reflexivity).
  exact (conj H (proj2 (runs_only_advance demo_applying 0%nat Applying
                          (Advance 0) _ H))).
Defined.

(** X4.  In every state the event loop reaches, each call of
    [devtools.update] in the log comes right after the reset dispatched by
    the same run for the same resource, a run has called [devtools.update]
    at most once, and not at all while it is reading or applying. *)
Theorem one_guarded_write_per_run st :
  reachable st →
  writes_guarded (log st) ∧
  ∀ r, (length (writes_of r (log st)) ≤ 1)%nat ∧
       (phase_of r st = Some Reading ∨ phase_of r st = Some Applying →
        writes_of r (log st) = []).
Proof.
  intros [Hg Hw]%log_inv_reachable. split; [done|]. intros r.
  destruct (Hw r) as [Hle Hz]. split; [done|]. intros [?|?]; apply Hz; auto.
Qed.

Lemma one_guarded_write_per_run_witness :
  reachable demo_failed ∧
  (length (writes_of 0 (log demo_failed)) ≤ 1)%nat.
Proof.
  assert (H : reachable demo_failed).
  { exists 0, demo_sessions,
      [Request 1 "a.css" 10%nat; Advance 1000; Fire 1%nat;
       ContentSettled 0 (Fulfilled "body{}");
       PatchSettled 0 (Fulfilled (RObject "body{color:red}"));
       UpdateSettled 0 (Rejected disk_full)]. vm_compute. reflexivity. }
  exact (conj H (proj1 (proj2 (one_guarded_write_per_run demo_failed H) 0%nat))).
Defined.

(** X5.  The module never cancels a timer: a pending timer stays in the
    queue until the event loop fires it, so the timer of [rejectOnTimeout]
    outlives a race that [applyPatch] won. *)
Theorem timers_are_never_cancelled st tm evs :
  tm ∈ timers st → Forall (λ ev, ev ≠ Fire (tid tm)) evs →
  tm ∈ timers (exec evs st).
Proof. apply timers_exec. Qed.

Lemma timers_are_never_cancelled_witness :
  let tm := {| tid := 2; due := 11000; cb := RejectOnTimeout 0 |} in
  let evs := [PatchSettled 0 (Fulfilled (RObject "body{color:red}"));
              UpdateSettled 0 (Rejected disk_full)] in
  tm ∈ timers demo_applying ∧ tm ∈ timers (exec evs demo_applying) ∧
  phase_of 0 (exec evs demo_applying) = Some Finished.
Proof.
  cbn zeta.
  assert (H : {| tid := 2; due := 11000; cb := RejectOnTimeout 0 |}
              ∈ timers demo_applying)
    by (vm_compute; apply list_elem_of_singleton; reflexivity).
  refine (conj H (conj (timers_are_never_cancelled _ _ _ H _) _)).
  - repeat constructor; discriminate.
  - vm_compute. reflexivity.
Defined.



(** X7.  In every state the event loop reaches, a key of [transactions]
    leads to the closure created for that resource, so two resources never
    share a closure, and every run belongs to a closure of its own
    resource. *)
Theorem registry_is_consistent st :
  reachable st →
  (∀ tabId url h, transactions st !! getKey tabId url = Some h →
     ∃ t, closures st !! h = Some t ∧ t_tabId t = tabId ∧
          t_resourceUrl t = url) ∧
  (∀ tabId1 url1 tabId2 url2 h,
     transactions st !! getKey tabId1 url1 = Some h →
     transactions st !! getKey tabId2 url2 = Some h →
     tabId1 = tabId2 ∧ url1 = url2) ∧
  (∀ r rn, runs st !! r = Some rn →
     ∃ t, closures st !! r_transaction rn = Some t ∧
          t_tabId t = r_tabId rn ∧ t_resourceUrl t = r_resourceUrl rn).
Proof.
  intros (Hk & Hr & _)%registry_wf_reachable.
  assert (H1 : ∀ tabId url h, transactions st !! getKey tabId url = Some h →
     ∃ t, closures st !! h = Some t ∧ t_tabId t = tabId ∧ t_resourceUrl t = url).
  { intros tab url h Hh. destruct (Hk _ h Hh) as (t & Ht & E).
    unfold getKey in E.
    apply plus_separates in E as [E Eu]; [|apply pretty_Z_plus_free..].
    apply (inj pretty) in E. eauto. }
  split; [done|]. split; [|done].
  intros tab1 url1 tab2 url2 h Hh1 Hh2.
  destruct (H1 _ _ _ Hh1) as (t1 & Ht1 & <- & <-).
  destruct (H1 _ _ _ Hh2) as (t2 & Ht2 & <- & <-). by simplify_eq.
Qed.

Lemma registry_is_consistent_witness :
  reachable demo_overlap ∧
  ∃ t, closures demo_overlap !! 0%nat = Some t ∧ t_tabId t = 1 ∧
       t_resourceUrl t = "a.css".
Proof.
  assert (H : reachable demo_overlap).
  { exists 0, demo_sessions,
      [Request 1 "a.css" 10%nat; Advance 1000; Fire 1%nat;
       ContentSettled 0 (Fulfilled "body{}");
       Advance 1500; Request 1 "a.css" 11%nat; Advance 2500; Fire 3%nat].
    vm_compute. reflexivity. }
  refine (conj H (proj1 (registry_is_consistent _ H) 1 "a.css" 0%nat _)).
  vm_compute. reflexivity.
Defined.



(** X9.  A request made while a run of its key is in flight loses its
    [applyPatch] when that run ends with patches pending: the last [then]
    calls the debounced function again with the [applyPatch] of the run that
    finished, on the timer the request armed. *)
Theorem restart_overrides_newer_request st r rn t g :
  runs st !! r = Some rn →
  transactions st !! key_of rn = Some (r_transaction rn) →
  closures st !! r_transaction rn = Some t →
  truthy (getResourcePatches (r_tabId rn) (r_resourceUrl rn) st) = true →
  let h := r_transaction rn in
  let st1 := requestUpdateTransaction (r_tabId rn) (r_resourceUrl rn) g st in
  let st2 := complete r st1 in
  (∃ t1, closures st1 !! h = Some t1 ∧ args t1 = Some g ∧
         is_Some (timeout t1)) ∧
  (∃ t2, closures st2 !! h = Some t2 ∧ args t2 = r_applyPatch rn ∧
         is_Some (timeout t2)) ∧
  timers st2 = timers st1.
Proof.
  intros H Hk Ht Hg. cbn zeta.
  assert (E1 : requestUpdateTransaction (r_tabId rn) (r_resourceUrl rn) g st
               = debounced (r_transaction rn) (Some g) st).
  { unfold requestUpdateTransaction. cbn zeta. unfold key_of in Hk.
    by rewrite Hk, Hk. }
  rewrite E1.
  destruct (debounced_closure (r_transaction rn) (Some g) st t Ht)
    as (t1 & Ht1 & Ha1 & _ & [id Hid] & _).
  set (st1 := debounced _ _ st) in *.
  assert (H1 : runs st1 !! r = Some rn) by (unfold st1; by rewrite debounced_runs).
  assert (Hg1 : truthy (getResourcePatches (r_tabId rn) (r_resourceUrl rn) st1) = true).
  { rewrite (getResourcePatches_sessions _ _ st); [done|].
    apply debounced_sessions. }
  split; [eauto|]. split.
  - destruct (complete_restart r rn t1 st1 H1 Ht1 Hg1) as (t2 & ? & ? & _ & ?).
    eauto.
  - rewrite (complete_timers r rn t1 st1 H1 Ht1 Hg1). by rewrite Hid.
Qed.

Lemma restart_overrides_newer_request_witness :
  let st := step (Advance 1500) demo_applying in
  let st1 := requestUpdateTransaction 1 "a.css" 11%nat st in
  runs st !! 0%nat = Some (demo_run Applying (VObj 7)) ∧
  transactions st !! "1+a.css" = Some 0%nat ∧
  (∃ t1, closures st1 !! 0%nat = Some t1 ∧ args t1 = Some 11%nat ∧
         is_Some (timeout t1)) ∧
  (∃ t2, closures (complete 0 st1) !! 0%nat = Some t2 ∧
         args t2 = Some 10%nat ∧ is_Some (timeout t2)).
Proof.
  cbn zeta.
  assert (H : runs (step (Advance 1500) demo_applying) !! 0%nat
              = Some (demo_run Applying (VObj 7))) by (vm_compute; reflexivity).
  assert (Hk : transactions (step (Advance 1500) demo_applying)
                 !! key_of (demo_run Applying (VObj 7)) = Some 0%nat)
    by (vm_compute; reflexivity).
  assert (Ht : closures (step (Advance 1500) demo_applying) !! 0%nat =
               Some {| t_tabId := 1; t_resourceUrl := "a.css"; timeout := None;
                       args := None; timestamp := 0 |}) by (vm_compute; reflexivity).
  assert (Hg : truthy (getResourcePatches 1 "a.css"
                         (step (Advance 1500) demo_applying)) = true)
    by (vm_compute; reflexivity).
  destruct (restart_overrides_newer_request _ 0%nat _ _ 11%nat H Hk Ht Hg)
    as (H1 & H2 & _).
  exact (conj H (conj Hk (conj H1 H2))).
Defined.

(** X10.  A request for one resource leaves the closures registered for the
    other resources as they are. *)
Theorem request_leaves_other_resources st tabId1 url1 h1 tabId2 url2 f :
  reachable st → transactions st !! getKey tabId1 url1 = Some h1 →
  (tabId1, url1) ≠ (tabId2, url2) →
  let st' := requestUpdateTransaction tabId2 url2 f st in
  transactions st' !! getKey tabId1 url1 = Some h1 ∧
  closures st' !! h1 = closures st !! h1.
Proof.
  intros Hre Hh1 Hne. cbn zeta.
  pose proof (registry_wf_reachable st Hre) as (Hk & _ & _).
  destruct (Hk _ _ Hh1) as (t1 & Ht1 & E1).
  pose proof (lookup_lt_Some _ _ _ Ht1) as Hlt.
  assert (Hkeys : getKey tabId2 url2 ≠ getKey tabId1 url1).
  { unfold getKey. intros E.
    apply plus_separates in E as [E ->]; [|apply pretty_Z_plus_free..].
    apply (inj pretty) in E. by subst. }
  unfold requestUpdateTransaction. cbn zeta.
  destruct (transactions st !! getKey tabId2 url2) as [h2|] eqn:Hh2.
  - rewrite Hh2. rewrite debounced_transactions. split; [done|].
    assert (h2 ≠ h1).
    { intros ->. destruct (Hk _ _ Hh2) as (t2 & Ht2 & E2). congruence. }
    destruct (closures st !! h2) as [t2|] eqn:Ht2;
      [|unfold debounced; by rewrite Ht2].
    destruct (timeout t2) as [id|] eqn:Hid.
    + rewrite (debounced_pending _ _ _ _ _ Ht2 Hid). cbn.
      by rewrite list_lookup_insert_ne.
    + rewrite (debounced_idle _ _ _ _ Ht2 Hid). cbn.
      by rewrite list_lookup_insert_ne.
  - unfold createTransaction. cbn [transactions set_transactions set_closures].
    rewrite lookup_insert_eq.
    set (t0 := {| t_tabId := tabId2; t_resourceUrl := url2; timeout := None;
                  args := None; timestamp := 0 |}).
    set (st1 := set_transactions _ _).
    assert (H1 : closures st1 !! length (closures st) = Some t0).
    { unfold st1. cbn. by rewrite lookup_app_r, Nat.sub_diag. }
    rewrite (debounced_idle _ _ st1 t0 H1 eq_refl). cbn. split.
    + by rewrite lookup_insert_ne.
    + rewrite list_lookup_insert_ne by lia. by rewrite lookup_app_l.
Qed.

Lemma request_leaves_other_resources_witness :
  let st' := requestUpdateTransaction 1 "b.css" 12%nat demo_applying in
  reachable demo_applying ∧
  transactions demo_applying !! getKey 1 "a.css" = Some 0%nat ∧
  closures st' !! 0%nat = closures demo_applying !! 0%nat.
Proof.
  cbn zeta.
  assert (H : reachable demo_applying).
  { exists 0, demo_sessions,
      [Request 1 "a.css" 10%nat; Advance 1000; Fire 1%nat;
       ContentSettled 0 (Fulfilled "body{}")]. vm_compute. reflexivity. }
  assert (Hk : transactions demo_applying !! getKey 1 "a.css" = Some 0%nat)
    by (vm_compute; reflexivity).
  refine (conj H (conj Hk (proj2 (request_leaves_other_resources
            _ 1 "a.css" 0%nat 1 "b.css" 12%nat H Hk _)))).
  intros [=].
Defined.

(** * Further properties of lib/utils.js *)

(** X11.  [unique] keeps the first occurrence of every value and drops the
    later ones: the result has no duplicates and the elements of the array,
    in the order of the array, and a value appended to the array is appended
    to the result exactly when it is new. *)
Theorem unique_keeps_first_occurrences arr :
  NoDup (Utils.unique arr) ∧
  (∀ x, x ∈ Utils.unique arr ↔ x ∈ arr) ∧
  Utils.unique arr `sublist_of` arr ∧
  (∀ x, Utils.unique (arr ++ [x]) =
        Utils.unique arr ++ (if decide (x ∈ arr) then [] else [x])) ∧
  Utils.unique (Utils.unique arr) = Utils.unique arr.
Proof.
  rewrite !unique_firsts. split; [apply firsts_NoDup|].
  split.
  { intros x. rewrite firsts_elem_of. split; [by intros [? _]|].
    intros ?. split; [done|]. by intros ?%elem_of_nil. }
  split; [apply firsts_sublist|]. split.
  - intros x. by rewrite ?unique_firsts, firsts_snoc.
  - rewrite ?unique_firsts. apply firsts_id; [apply firsts_NoDup|].
    intros x _. by intros ?%elem_of_nil.
Qed.

(** X12.  For an object whose keys are distinct, [keyForValue] returns
    [null] exactly when no property holds the value, and otherwise the key
    of the last property, in the order of [Object.keys], that holds it. *)
Theorem keyForValue_last_match (obj : list (string * value)) v :
  NoDup (obj.*1) →
  (Utils.keyForValue obj v = None ↔ ∀ k x, (k, x) ∈ obj → x ≠ v) ∧
  (∀ k, Utils.keyForValue obj v = Some k →
     ∃ l1 l2, obj = l1 ++ (k, v) :: l2 ∧ ∀ k' x', (k', x') ∈ l2 → x' ≠ v).
Proof.
  intros Hnd. rewrite (keyForValue_find obj v Hnd). split.
  - destruct (list_find _ (reverse obj)) as [[i p]|] eqn:E.
    + split; [done|]. intros Hall.
      apply list_find_Some in E as (Hi & Hp & _).
      destruct p as [k x]. destruct (Hall k x); [|done].
      apply elem_of_reverse. by eapply list_elem_of_lookup_2.
    + split; [|done]. intros _ k x Hin Hx.
      apply list_find_None in E.
      apply (proj1 (Forall_forall _ _) E (k, x)); [|done].
      by apply elem_of_reverse.
  - intros k. destruct (list_find _ (reverse obj)) as [[i [k0 x0]]|] eqn:E; [|done].
    intros [= <-]. apply list_find_Some in E as (Hi & Hp & Hbefore).
    cbn in Hp. subst x0.
    exists (reverse (drop (S i) (reverse obj))), (reverse (take i (reverse obj))).
    split.
    + rewrite <- (reverse_involutive obj) at 1.
      rewrite <- (take_drop_middle (reverse obj) i (k0, v) Hi) at 1.
      by rewrite reverse_app, reverse_cons, <- app_assoc.
    + intros k' x' Hin Hx. rewrite elem_of_reverse in Hin.
      apply list_elem_of_lookup in Hin as [j Hj].
      apply lookup_take_Some in Hj as [Hj Hlt].
      by apply (Hbefore j (k', x') Hj Hlt).
Qed.

Lemma keyForValue_last_match_witness :
  let obj := [("color", VStr "red"); ("width", VNum 2); ("border", VStr "red")] in
  NoDup (obj.*1) ∧ Utils.keyForValue obj (VStr "red") = Some "border" ∧
  (Utils.keyForValue obj (VNum 3) = None ↔ ∀ k x, (k, x) ∈ obj → x ≠ VNum 3).
Proof.
  cbn zeta.
  assert (H : NoDup ([("color", VStr "red"); ("width", VNum 2);
                      ("border", VStr "red")].*1)).
  { cbn. repeat (apply NoDup_cons_2;
      [rewrite ?elem_of_cons, ?elem_of_nil; intros H; decompose [or] H; done|]).
    apply NoDup_nil_2. }
  refine (conj H (conj _ (proj1 (keyForValue_last_match _ (VNum 3) H)))).
  vm_compute. reflexivity.
Defined.

(** X13.  [normalizeUrl] cuts a url off at a ["#"]: the result is a prefix
    of the url and normalising it again changes nothing.  A url without
    ["#"] is returned as it is; in a url without line terminator everything
    from the first ["#"] on is dropped; and a ["#"] that is followed by a
    line terminator is kept. *)
Theorem normalizeUrl_strips_fragment url :
  Utils.normalizeUrl url `prefix_of` url ∧
  Utils.normalizeUrl (Utils.normalizeUrl url) = Utils.normalizeUrl url ∧
  (35%N ∉ url → Utils.normalizeUrl url = url) ∧
  (Utils.dot_star_end url = true →
     (35%N ∉ Utils.normalizeUrl url) ∧
     ∃ frag, url = Utils.normalizeUrl url ++ frag ∧
             (frag = [] ∨ ∃ f, frag = 35%N :: f)) ∧
  (∀ pre c post, url = pre ++ c :: post →
     Utils.is_line_terminator c = true → 35%N ∉ post →
     Utils.normalizeUrl url = url).
Proof.
  split; [apply normalizeUrl_prefix|]. split; [apply normalizeUrl_idem|].
  split; [apply normalizeUrl_no_hash|]. split; [apply normalizeUrl_plain|].
  intros pre c post -> Hc Hp. by apply normalizeUrl_terminated.
Qed.

(** X14. Whatever the calls of the function [throttle] returns and whenever
    the timers fire, each call of [func] is at least [wait] after the one
    before (the first at least [wait] after time 0, the initial [previous]),
    and a pending timer is due [wait] after the last call of [func]. *)
Theorem throttle_calls_are_spaced wait t0 evs :
  Timing.spaced wait 0
    (Timing.times (Timing.exec (Timing.Throttle wait) evs (Timing.init t0))) ∧
  ∀ tm, tm ∈ Timing.c_timers
               (Timing.exec (Timing.Throttle wait) evs (Timing.init t0)) →
    tm.2 = default 0 (last (Timing.times
               (Timing.exec (Timing.Throttle wait) evs (Timing.init t0)))) + wait.
Proof.
  pose proof (throttle_inv_exec wait evs _ (throttle_inv_init wait t0))
    as (Hs & Hp & Ht).
  split; [done|]. intros tm Hin. rewrite <- Hp. by destruct (Ht tm Hin).
Qed.

(** X15. When the function [throttle] returns is called while its timer is
    due but has not fired, it calls [func] at once and clears the timer but
    leaves its id in [timeout]: the calls made before [wait] has passed are
    then dropped, no timer being armed for them, and [func] is not called
    again until the returned function is called after that. *)
Theorem throttle_drops_calls_after_late_timer wait t0 evs c tm a evs1 evs2 :
  0 < wait →
  c = Timing.exec (Timing.Throttle wait) evs (Timing.init t0) →
  tm ∈ Timing.c_timers c → tm.2 ≤ Timing.c_now c →
  Forall (Timing.before (Timing.c_now c + wait)) evs1 →
  Forall (λ ev, Timing.is_call ev = false) evs2 →
  Timing.c_calls (Timing.step (Timing.Throttle wait) (Timing.Call a) c) =
    Timing.c_calls c ++ [(Timing.c_now c, Some a)] ∧
  Timing.c_calls (Timing.exec (Timing.Throttle wait) (evs1 ++ evs2)
                    (Timing.step (Timing.Throttle wait) (Timing.Call a) c)) =
    Timing.c_calls c ++ [(Timing.c_now c, Some a)].
Proof.
  intros Hw -> Hin Hd H1 H2.
  pose proof (throttle_inv_exec wait evs _ (throttle_inv_init wait t0))
    as (_ & _ & Ht).
  set (c := Timing.exec _ evs _) in *.
  destruct (Ht tm Hin) as [Hto Hdue].
  pose proof (clearTimeout_frame (Timing.set_args (Some a) c))
    as (Hn & Hc & Hk & _).
  pose proof (clearTimeout_timers (Timing.set_args (Some a) c)
    (λ tm H, proj1 (Ht tm H))) as Hnil.
  cbn in Hn, Hc, Hk.
  assert (Hstep : Timing.step (Timing.Throttle wait) (Timing.Call a) c =
    Timing.invoke (Timing.set_stamp (Timing.c_now c)
      (Timing.clearTimeout (Timing.set_args (Some a) c)))).
  { cbn [Timing.step]. unfold Timing.throttle_call. cbn.
    destruct (Z.leb_spec (wait - (Timing.c_now c - Timing.c_stamp c)) 0);
      [done|lia]. }
  rewrite Hstep.
  assert (Hcalls : Timing.c_calls (Timing.invoke (Timing.set_stamp (Timing.c_now c)
      (Timing.clearTimeout (Timing.set_args (Some a) c)))) =
    Timing.c_calls c ++ [(Timing.c_now c, Some a)]).
  { cbn. rewrite Hc, Hn.
    by destruct (clearTimeout_frame (Timing.set_args (Some a) c))
      as (_ & _ & _ & ->). }
  split; [done|]. rewrite exec_app.
  destruct (stale_window wait evs1 (Timing.invoke (Timing.set_stamp (Timing.c_now c)
      (Timing.clearTimeout (Timing.set_args (Some a) c))))) as [Hc1 Ht1].
  - done.
  - cbn. rewrite Hk, Hto. by eexists.
  - cbn. rewrite Hn. lia.
  - done.
  - rewrite idle_quiet; [|done..]. by rewrite Hc1.
Qed.

Lemma throttle_drops_calls_after_late_timer_witness :
  Timing.c_calls
    (Timing.exec (Timing.Throttle 100)
       ([Timing.Tick 1250; Timing.Call 4] ++ [Timing.Tick 2000; Timing.Fire 1])
       (Timing.step (Timing.Throttle 100) (Timing.Call 3)
          (Timing.exec (Timing.Throttle 100)
             [Timing.Call 1; Timing.Tick 1050; Timing.Call 2; Timing.Tick 1200]
             (Timing.init 1000)))) =
  [(1000, Some 1%nat); (1200, Some 3%nat)].
Proof.
  refine (proj2 (throttle_drops_calls_after_late_timer 100 1000
    [Timing.Call 1; Timing.Tick 1050; Timing.Call 2; Timing.Tick 1200]
    _ (1%nat, 1100) 3 [Timing.Tick 1250; Timing.Call 4]
    [Timing.Tick 2000; Timing.Fire 1] _ eq_refl _ _ _ _)).
  - lia.
  - vm_compute. left.
  - vm_compute. discriminate.
  - repeat constructor.
  - repeat constructor.
Defined.

(** X16. On either edge, whatever the calls of the function [debounce]
    returns and whenever the timers fire, with a clock that does not go
    back each call of [func] is at least [wait] after the one before. *)
Theorem debounced_calls_are_spaced wait immediate t0 evs :
  Timing.gaps wait
    (Timing.times
       (Timing.exec (Timing.Debounce wait immediate) evs (Timing.init t0))).
Proof.
  by destruct (debounce_inv_exec wait immediate evs _
    (debounce_inv_init wait immediate t0)) as (Hg & _).
Qed.

(** X17. A turn of [debounce] or [throttle] calls [func] at most once, and
    then with the arguments of the latest call of the returned function:
    never with none, and never with those of an earlier call. *)
Theorem wrapper_passes_latest_arguments w t0 evs ev :
  Timing.c_calls (Timing.exec w (evs ++ [ev]) (Timing.init t0)) =
    Timing.c_calls (Timing.exec w evs (Timing.init t0)) ∨
  ∃ a, Timing.latest (evs ++ [ev]) = Some a ∧
       Timing.c_calls (Timing.exec w (evs ++ [ev]) (Timing.init t0)) =
       Timing.c_calls (Timing.exec w evs (Timing.init t0)) ++
       [(Timing.c_now (Timing.exec w evs (Timing.init t0)), Some a)].
Proof.
  rewrite exec_snoc.
  apply (step_calls w evs ev); [|apply args_inv_reachable].
  intros tm. apply timers_tracked.
Qed.

(** X18. On the trailing edge, between a call of the function [debounce]
    returns and the next one, [func] is called at most once, with the
    arguments of that call and not before [wait] has passed since it. *)
Theorem debounce_trailing_call wait t0 evs1 a evs2 :
  Forall (λ ev, Timing.is_call ev = false) evs2 →
  Timing.c_calls (Timing.exec (Timing.Debounce wait false)
                    (evs1 ++ Timing.Call a :: evs2) (Timing.init t0)) =
    Timing.c_calls (Timing.exec (Timing.Debounce wait false) evs1 (Timing.init t0)) ∨
  ∃ t, Timing.c_now (Timing.exec (Timing.Debounce wait false) evs1 (Timing.init t0))
         + wait ≤ t ∧
       Timing.c_calls (Timing.exec (Timing.Debounce wait false)
                         (evs1 ++ Timing.Call a :: evs2) (Timing.init t0)) =
       Timing.c_calls (Timing.exec (Timing.Debounce wait false) evs1 (Timing.init t0))
         ++ [(t, Some a)].
Proof.
  intros Hq.
  destruct (trailing_after_call wait t0 evs1 a evs2 Hq)
    as [(Hc & _)|(_ & t & Hle & Hc)]; [by left|right; by exists t].
Qed.

Lemma debounce_trailing_call_witness :
  ∃ t, 1000 + 100 ≤ t ∧
       Timing.c_calls (Timing.exec (Timing.Debounce 100 false)
         ([] ++ Timing.Call 1 :: [Timing.Tick 1130; Timing.Fire 1])
         (Timing.init 1000)) = [(t, Some 1%nat)].
Proof.
  destruct (debounce_trailing_call 100 1000 [] 1
    [Timing.Tick 1130; Timing.Fire 1]) as [H|H].
  - repeat constructor.
  - vm_compute in H. discriminate H.
  - exact H.
Defined.
